(** * Locutus: contract keys, spec envelopes, peer time estimator,
      join-ring forwarding and the inbox model.

    A shallow embedding of the parts of
    - crates/locutus-stdlib/src/interface.rs   (ContractData, ContractKey,
      ContractSpecification decoding),
    - crates/locutus-router/src/lib.rs          (PeerTimeEstimator),
    - crates/locutus-node/src/operations/join_ring.rs (JROpSM, update_state,
      join_ring_op),
    - apps/freenet-email-app/web/src/inbox.rs   (InboxModel),
    together with the external pieces they call (BLAKE2, rust_fsm's
    [consume], std's [binary_search_by]).

    Conventions: bytes are [Z] in [0, 256); Rust panics ([todo!()],
    failed [copy_from_slice], arithmetic overflow with overflow checks,
    capacity overflow) are the [RPanic] outcome; [usize] and [u64] are
    [nat]/[Z] with their bounds written out; floating-point locations and
    times are [Q]. *)

From Stdlib Require Import ZArith QArith Qabs Lia Sorted.
From stdpp Require Import base list gmap strings.

Open Scope Z_scope.

(** ** Outcomes of fallible Rust code *)

Inductive res (E A : Type) : Type :=
| ROk (a : A)
| RErr (e : E)
| RPanic.
Arguments ROk {E A} a.
Arguments RErr {E A} e.
Arguments RPanic {E A}.

Definition res_bind {E A B} (m : res E A) (k : A -> res E B) : res E B :=
  match m with
  | ROk a => k a
  | RErr e => RErr e
  | RPanic => RPanic
  end.

Notation "'let?' x ':=' m 'in' k" := (res_bind m (fun x => k))
  (at level 200, x name, m at level 100, k at level 200).

(** ** BLAKE2 (RFC 7693), the hash behind [Blake2s256] and [Blake2b512]

    One generic definition, instantiated with the word size, block size,
    rounds, rotation constants and IV of each variant. *)

Record blake2_variant := {
  b2_w : Z;                (* word size in bits *)
  b2_block : nat;          (* block size in bytes *)
  b2_rounds : nat;
  b2_rot : Z * Z * Z * Z;  (* R1, R2, R3, R4 *)
  b2_iv : list Z
}.

Definition b2_sigma : list (list nat) :=
  [ [0;1;2;3;4;5;6;7;8;9;10;11;12;13;14;15]%nat;
    [14;10;4;8;9;15;13;6;1;12;0;2;11;7;5;3]%nat;
    [11;8;12;0;5;2;15;13;10;14;3;6;7;1;9;4]%nat;
    [7;9;3;1;13;12;11;14;2;6;5;10;4;0;15;8]%nat;
    [9;0;5;7;2;4;10;15;14;1;11;12;6;8;3;13]%nat;
    [2;12;6;10;0;11;8;3;4;13;7;5;15;14;1;9]%nat;
    [12;5;1;15;14;13;4;10;0;7;6;3;9;2;8;11]%nat;
    [13;11;7;14;12;1;3;9;5;0;15;4;8;6;2;10]%nat;
    [6;15;14;9;11;3;0;8;12;2;13;7;1;4;10;5]%nat;
    [10;2;8;4;7;6;1;5;15;11;9;14;3;12;13;0]%nat ].

Definition BLAKE2B : blake2_variant := {|
  b2_w := 64; b2_block := 128; b2_rounds := 12; b2_rot := (32, 24, 16, 63);
  b2_iv := [0x6A09E667F3BCC908; 0xBB67AE8584CAA73B; 0x3C6EF372FE94F82B;
            0xA54FF53A5F1D36F1; 0x510E527FADE682D1; 0x9B05688C2B3E6C1F;
            0x1F83D9ABFB41BD6B; 0x5BE0CD19137E2179] |}.

Definition BLAKE2S : blake2_variant := {|
  b2_w := 32; b2_block := 64; b2_rounds := 10; b2_rot := (16, 12, 8, 7);
  b2_iv := [0x6A09E667; 0xBB67AE85; 0x3C6EF372; 0xA54FF53A;
            0x510E527F; 0x9B05688C; 0x1F83D9AB; 0x5BE0CD19] |}.

Section Blake2.
Variable p : blake2_variant.

Definition wadd (x y : Z) : Z := (x + y) mod 2 ^ b2_w p.

Definition rotr (x n : Z) : Z :=
  Z.lor (Z.shiftr x n) (Z.land (Z.shiftl x (b2_w p - n)) (Z.ones (b2_w p))).

Definition vget (v : list Z) (i : nat) : Z := nth i v 0.

Definition b2_G (v : list Z) (a b c d : nat) (x y : Z) : list Z :=
  let '(r1, r2, r3, r4) := b2_rot p in
  let v := <[a := wadd (wadd (vget v a) (vget v b)) x]> v in
  let v := <[d := rotr (Z.lxor (vget v d) (vget v a)) r1]> v in
  let v := <[c := wadd (vget v c) (vget v d)]> v in
  let v := <[b := rotr (Z.lxor (vget v b) (vget v c)) r2]> v in
  let v := <[a := wadd (wadd (vget v a) (vget v b)) y]> v in
  let v := <[d := rotr (Z.lxor (vget v d) (vget v a)) r3]> v in
  let v := <[c := wadd (vget v c) (vget v d)]> v in
  <[b := rotr (Z.lxor (vget v b) (vget v c)) r4]> v.

Definition b2_round (m : list Z) (v : list Z) (i : nat) : list Z :=
  let s := nth (i mod 10) b2_sigma [] in
  let mw j := vget m (nth j s 0%nat) in
  let v := b2_G v 0 4 8 12 (mw 0%nat) (mw 1%nat) in
  let v := b2_G v 1 5 9 13 (mw 2%nat) (mw 3%nat) in
  let v := b2_G v 2 6 10 14 (mw 4%nat) (mw 5%nat) in
  let v := b2_G v 3 7 11 15 (mw 6%nat) (mw 7%nat) in
  let v := b2_G v 0 5 10 15 (mw 8%nat) (mw 9%nat) in
  let v := b2_G v 1 6 11 12 (mw 10%nat) (mw 11%nat) in
  let v := b2_G v 2 7 8 13 (mw 12%nat) (mw 13%nat) in
  b2_G v 3 4 9 14 (mw 14%nat) (mw 15%nat).

(** The compression function F(h, m, t, f). *)
Definition b2_F (h m : list Z) (t : Z) (last : bool) : list Z :=
  let v := h ++ b2_iv p in
  let v := <[12%nat := Z.lxor (vget v 12) (t mod 2 ^ b2_w p)]> v in
  let v := <[13%nat := Z.lxor (vget v 13) (Z.shiftr t (b2_w p))]> v in
  let v := if last then <[14%nat := Z.lxor (vget v 14) (Z.ones (b2_w p))]> v else v in
  let v := fold_left (b2_round m) (seq 0 (b2_rounds p)) v in
  map (fun i => Z.lxor (vget h i) (Z.lxor (vget v i) (vget v (i + 8)))) (seq 0 8).

(** Little-endian bytes to an unsigned integer. *)
Fixpoint le_to_Z (bs : list Z) : Z :=
  match bs with
  | [] => 0
  | b :: bs' => b + 256 * le_to_Z bs'
  end.

Definition word_bytes : nat := Z.to_nat (b2_w p / 8).

Definition block_words (blk : list Z) : list Z :=
  map (fun i => le_to_Z (firstn word_bytes (skipn (i * word_bytes) blk))) (seq 0 16).

Fixpoint chunks (n k : nat) (l : list Z) : list (list Z) :=
  match k with
  | O => []
  | S k' => firstn n l :: chunks n k' (skipn n l)
  end.

Fixpoint b2_blocks (h : list Z) (blocks : list (list Z)) (i : nat) (ll : Z) : list Z :=
  match blocks with
  | [] => h
  | [blk] => b2_F h (block_words blk) ll true
  | blk :: rest =>
      b2_blocks (b2_F h (block_words blk) (Z.of_nat ((i + 1) * b2_block p)) false)
        rest (S i) ll
  end.

(** Unkeyed BLAKE2 with an [nn]-byte digest. *)
Definition blake2 (nn : nat) (data : list Z) : list Z :=
  let iv := b2_iv p in
  let h0 := <[0%nat := Z.lxor (vget iv 0) (Z.lxor 0x01010000 (Z.of_nat nn))]> iv in
  let ll := length data in
  let dd := Nat.max 1 ((ll + b2_block p - 1) / b2_block p) in
  let padded := data ++ repeat 0 (dd * b2_block p - ll) in
  let h := b2_blocks h0 (chunks (b2_block p) dd padded) 0 (Z.of_nat ll) in
  map (fun i => Z.land (Z.shiftr (vget h (i / word_bytes))
                                 (8 * Z.of_nat (i mod word_bytes))) 255)
      (seq 0 nn).

End Blake2.

(** [Blake2s256::digest] and [Blake2b512::digest]. *)
Definition blake2s256 (data : list Z) : list Z := blake2 BLAKE2S 32 data.
Definition blake2b512 (data : list Z) : list Z := blake2 BLAKE2B 64 data.

(** ** Contract keys (interface.rs) *)

Definition CONTRACT_KEY_SIZE : nat := 64.

(** [dst.copy_from_slice(src)] into a [[u8; n]]: panics unless the lengths
    agree. *)
Definition copy_from_slice {E} (n : nat) (src : list Z) : res E (list Z) :=
  if Nat.eqb (length src) n then ROk src else RPanic.

Record ContractData := {
  cd_data : list Z;
  cd_key : list Z       (* [key: [u8; CONTRACT_KEY_SIZE]] *)
}.

(** [ContractData::gen_key]: a [Blake2s256] digest copied into a
    [[u8; CONTRACT_KEY_SIZE]] (the [debug_assert_eq!] on the length, in
    debug builds, panics on the same inputs as [copy_from_slice]). *)
Definition gen_key {E} (data : list Z) : res E (list Z) :=
  let key_arr := blake2s256 data in
  copy_from_slice CONTRACT_KEY_SIZE key_arr.

(** [impl From<Vec<u8>> for ContractData]. *)
Definition contract_data_from {E} (data : list Z) : res E ContractData :=
  let? key := gen_key data in
  ROk {| cd_data := data; cd_key := key |}.

Record ContractKey := {
  ck_spec : list Z;      (* [spec: [u8; CONTRACT_KEY_SIZE]] *)
  ck_contract : list Z   (* [contract: [u8; CONTRACT_KEY_SIZE]] *)
}.

(** [impl From<(T, U)> for ContractKey]: [Blake2b512] over the contract
    hash followed by the parameters. *)
Definition contract_key_from {E} (parameters : list Z) (contract : ContractData)
    : res E ContractKey :=
  let contract_hash := cd_key contract in
  let full_key_arr := blake2b512 (contract_hash ++ parameters) in
  let? spec := copy_from_slice CONTRACT_KEY_SIZE full_key_arr in
  ROk {| ck_spec := spec; ck_contract := contract_hash |}.

(** Key derivation from a [(code, parameters)] pair as the code performs it:
    build the [ContractData] from the code, then the [ContractKey]. *)
Definition derive_key {E} (code parameters : list Z) : res E ContractKey :=
  let? cd := contract_data_from code in
  contract_key_from parameters cd.

(** ** Decoding a contract specification blob
    ([impl TryFrom<Vec<u8>> for ContractSpecification]) *)

Inductive IoError := UnexpectedEof.

Definition isize_max : Z := 2 ^ 63 - 1.

(** [ReadBytesExt::read_u64::<LittleEndian>] on a cursor. *)
Definition read_u64_le (l : list Z) : res IoError (Z * list Z) :=
  if Nat.ltb (length l) 8 then RErr UnexpectedEof
  else ROk (le_to_Z (firstn 8 l), skipn 8 l).

(** [vec![0; n]] for [u8]: capacity overflow above [isize::MAX]. *)
Definition vec_zeroed {E} (n : Z) : res E (list Z) :=
  if n <=? isize_max then ROk (repeat 0 (Z.to_nat n)) else RPanic.

(** [reader.read_exact(&mut buf)] *)
Definition read_exact (buf : list Z) (l : list Z) : res IoError (list Z * list Z) :=
  if Nat.leb (length buf) (length l) then ROk (firstn (length buf) l, skipn (length buf) l)
  else RErr UnexpectedEof.

Record ContractSpecification := {
  cs_parameters : list Z;
  cs_contract : ContractData;
  cs_key : ContractKey
}.

(** The byte-reading part of [try_from]: params, then contract code. *)
Definition read_spec_parts (data : list Z) : res IoError (list Z * list Z) :=
  let? r := read_u64_le data in
  let? params_buf := vec_zeroed (fst r) in
  let? r := read_exact params_buf (snd r) in
  let parameters := fst r in
  let? r := read_u64_le (snd r) in
  let? contract_buf := vec_zeroed (fst r) in
  let? r := read_exact contract_buf (snd r) in
  ROk (parameters, fst r).

Definition spec_try_from (data : list Z) : res IoError ContractSpecification :=
  let? pc := read_spec_parts data in
  let parameters := fst pc in
  let? contract := contract_data_from (snd pc) in
  let? key := contract_key_from parameters contract in
  ROk {| cs_parameters := parameters; cs_contract := contract; cs_key := key |}.

(** The envelope as the spec lays it out:
    [u64 params_len || params || u64 contract_code_len || contract_code]. *)
Fixpoint bytes_le (k : nat) (n : Z) : list Z :=
  match k with
  | O => []
  | S k' => n mod 256 :: bytes_le k' (n / 256)
  end.

Definition encode_spec (params code : list Z) : list Z :=
  bytes_le 8 (Z.of_nat (length params)) ++ params
  ++ bytes_le 8 (Z.of_nat (length code)) ++ code.

(** ** Peer time estimator (locutus-router/src/lib.rs) *)

Definition PeerId := nat.

(** Modelled from the spec: [Location::distance] (ring.rs is not part of
    the sources), the shorter arc [min(|a-b|, 1 - |a-b|)]. *)
Definition distance (a b : Q) : Q :=
  let d := Qabs (a - b) in
  if Qle_bool d (1 - d) then d else 1 - d.

Definition Point : Type := (Q * Q)%type.

Record RoutingEvent := {
  ev_peer : PeerId;
  ev_peer_location : Q;
  ev_contract_location : Q;
  ev_result : Q
}.

Definition MIN_PEER_POINTS_FOR_REGRESSION : nat := 10.

(** [Point::new(event.peer_location.distance(&event.contract_location), event.result)] *)
Definition event_point (ev : RoutingEvent) : Point :=
  (distance (ev_peer_location ev) (ev_contract_location ev), ev_result ev).

(** [IsotonicRegression] comes from the external [pav_regression] crate:
    the estimator is stated over any implementation of the four operations
    it calls. *)
Record PeerTimeEstimator (R : Type) := {
  global_regression : R;
  peer_regressions : gmap PeerId R
}.
Arguments global_regression {R} _.
Arguments peer_regressions {R} _.

Section Estimator.
Context {R : Type}.
Variable new_ascending : list Point -> R.
Variable add_points : R -> list Point -> R.
Variable reg_len : R -> nat.
Variable interpolate : R -> Q -> Q.

(** One iteration of the loop of [new]: push onto [all_points] and onto the
    peer's entry of [peer_points]. *)
Definition collect_step (acc : list Point * gmap PeerId (list Point)) (ev : RoutingEvent)
    : list Point * gmap PeerId (list Point) :=
  let point := event_point ev in
  (fst acc ++ [point],
   <[ev_peer ev := default [] (snd acc !! ev_peer ev) ++ [point]]> (snd acc)).

(** [PeerTimeEstimator::new]: the filter on [points.len() > MIN] followed by
    the map to [new_ascending] is an [omap]. *)
Definition estimator_new (history : list RoutingEvent) : PeerTimeEstimator R :=
  let acc := fold_left collect_step history ([], ∅) in
  {| global_regression := new_ascending (fst acc);
     peer_regressions :=
       omap (fun points =>
               if Nat.ltb MIN_PEER_POINTS_FOR_REGRESSION (length points)
               then Some (new_ascending points) else None) (snd acc) |}.

(** [PeerTimeEstimator::add_event]: the peer's entry is created with
    [new_ascending(&[point])] when missing, then [add_points(&[point])]. *)
Definition add_event (est : PeerTimeEstimator R) (ev : RoutingEvent) : PeerTimeEstimator R :=
  let point := event_point ev in
  let r := match peer_regressions est !! ev_peer ev with
           | Some r => r
           | None => new_ascending [point]
           end in
  {| global_regression := add_points (global_regression est) [point];
     peer_regressions := <[ev_peer ev := add_points r [point]]> (peer_regressions est) |}.

(** [PeerTimeEstimator::estimate_retrieval_time] *)
Definition estimate_retrieval_time (est : PeerTimeEstimator R) (peer : PeerId) (d : Q)
    : option Q :=
  match peer_regressions est !! peer with
  | Some regression => Some (interpolate regression d)
  | None =>
      if Nat.ltb MIN_PEER_POINTS_FOR_REGRESSION (reg_len (global_regression est))
      then Some (interpolate (global_regression est) d)
      else None
  end.

End Estimator.

(** A regression that keeps the points it is given, answering with the mean
    of their times; used only to run the estimator on concrete inputs (the
    results below about the estimator hold for every regression). *)
Definition points_regression_interpolate (r : list Point) (_ : Q) : Q :=
  match r with
  | [] => 0%Q
  | _ => (fold_right Qplus 0 (map snd r) / inject_Z (Z.of_nat (length r)))%Q
  end.

(** ** Join-ring operation (locutus-node/src/operations/join_ring.rs) *)

Definition PeerKey := nat.
Definition Transaction := nat.

Record PeerKeyLocation := {
  pkl_peer : PeerKey;
  pkl_location : option Q
}.

Module JoinRequest.
Inductive t :=
| Initial (target_loc : PeerKeyLocation) (req_peer : PeerKey)
          (hops_to_live : nat) (max_hops_to_live : nat)
| Proxy (joiner : PeerKeyLocation) (hops_to_live : nat).
End JoinRequest.

Module JoinResponse.
Inductive t :=
| Initial (accepted_by : list PeerKeyLocation) (your_location : Q) (your_peer_id : PeerKey)
| ReceivedOC (by_peer : PeerKeyLocation)
| Proxy (accepted_by : list PeerKeyLocation).
End JoinResponse.

Module JoinRingMsg.
Inductive t :=
| Req (id : Transaction) (msg : JoinRequest.t)
| Resp (id : Transaction) (sender : PeerKeyLocation) (msg : JoinResponse.t)
| Connected.

(** [JoinRingMsg::id]: [Connected => todo!()]. *)
Definition id {E} (m : t) : res E Transaction :=
  match m with
  | Req id _ => ROk id
  | Resp id _ _ => ROk id
  | Connected => RPanic
  end.

(** [JoinRingMsg::sender]: [Connected => todo!()]. *)
Definition sender {E} (m : t) : res E (option PeerKeyLocation) :=
  match m with
  | Req _ _ => ROk None
  | Resp _ s _ => ROk (Some s)
  | Connected => RPanic
  end.
End JoinRingMsg.

(** Modelled from the spec: [Message] (message.rs is not part of the
    sources); the two variants the join-ring code builds, with [id] and
    [sender] delegating to the wrapped [JoinRingMsg]. *)
Module Message.
Inductive t :=
| JoinRing (m : JoinRingMsg.t)
| Canceled (tx : Transaction).

Definition id {E} (m : t) : res E Transaction :=
  match m with
  | JoinRing m => JoinRingMsg.id m
  | Canceled tx => ROk tx
  end.

Definition sender {E} (m : t) : res E (option PeerKeyLocation) :=
  match m with
  | JoinRing m => JoinRingMsg.sender m
  | Canceled _ => ROk None
  end.
End Message.

Record ConnectionInfo := {
  gateway : PeerKeyLocation;
  this_peer : PeerKey;
  ci_max_hops_to_live : nat
}.

Module JRState.
Inductive t :=
| Initializing
| Connecting (info : ConnectionInfo)
| OCReceived
| Connected.
End JRState.

(** [JROpSM::transition], case by case as in the source. *)
Definition transition (state : JRState.t) (input : JoinRingMsg.t) : option JRState.t :=
  match state, input with
  | JRState.Initializing,
    JoinRingMsg.Req _ (JoinRequest.Initial target_loc req_peer _ max_hops_to_live) =>
      Some (JRState.Connecting {| gateway := target_loc; this_peer := req_peer;
                                  ci_max_hops_to_live := max_hops_to_live |})
  | (JRState.Connecting _ | JRState.Initializing),
    JoinRingMsg.Resp _ _ (JoinResponse.ReceivedOC _) => Some JRState.OCReceived
  | (JRState.Connecting _ | JRState.OCReceived),
    (JoinRingMsg.Req _ _ | JoinRingMsg.Connected) => Some JRState.Connected
  | JRState.Connected, _ => None
  | _, _ => None
  end.

(** [JROpSM::output] *)
Definition output (state : JRState.t) (input : JoinRingMsg.t) : option JoinRingMsg.t :=
  match state, input with
  | JRState.Initializing,
    JoinRingMsg.Req id (JoinRequest.Initial target_loc req_peer _ _) =>
      Some (JoinRingMsg.Resp id {| pkl_peer := req_peer; pkl_location := None |}
              (JoinResponse.ReceivedOC target_loc))
  | (JRState.Initializing | JRState.Connecting _),
    (JoinRingMsg.Resp _ _ (JoinResponse.ReceivedOC _) | JoinRingMsg.Connected) =>
      Some JoinRingMsg.Connected
  | JRState.OCReceived, JoinRingMsg.Connected => Some JoinRingMsg.Connected
  | _, _ => None
  end.

Inductive TransitionImpossibleError := TransitionImpossible.

(** rust_fsm's [StateMachine::consume]: on a transition, compute the output
    from the old state and move; otherwise an error and the state is kept. *)
Definition consume (state : JRState.t) (input : JoinRingMsg.t)
    : (JRState.t * res TransitionImpossibleError (option JoinRingMsg.t)) :=
  match transition state input with
  | Some next => (next, ROk (output state input))
  | None => (state, RErr TransitionImpossible)
  end.

(** Modelled from the spec: the [Ring] (ring.rs is not part of the
    sources).  [connections_by_location] is the ordered map
    [Location -> PeerKeyLocation] as its list of entries, keys unique. *)
Record Ring := {
  connections_by_location : list (Q * PeerKeyLocation);
  max_connections : nat;
  ring_max_hops_to_live : nat;
  rnd_if_htl_above : nat
}.

(** Modelled from the spec: [Ring::should_accept] is true iff the neighbor
    set has fewer than [max_connections] members, or the candidate is
    strictly closer to [my_loc] than the farthest neighbor (that is, than
    some neighbor). *)
Definition should_accept (ring : Ring) (my_loc candidate : Q) : bool :=
  Nat.ltb (length (connections_by_location ring)) (max_connections ring)
  || existsb (fun e => negb (Qle_bool (distance my_loc (fst e)) (distance my_loc candidate)))
             (connections_by_location ring).

(** Modelled from the spec: [Ring::random_peer(filter)], a uniformly random
    neighbor passing [filter]; the random draw is the argument [rnd]. *)
Definition random_peer (ring : Ring) (filter : PeerKeyLocation -> bool) (rnd : nat)
    : option PeerKeyLocation :=
  match List.filter filter (map snd (connections_by_location ring)) with
  | [] => None
  | cands => nth_error cands (rnd mod length cands)
  end.

(** [BTreeMap::get(&loc)] on [connections_by_location]: exact key lookup. *)
Definition conn_get (ring : Ring) (loc : Q) : option PeerKeyLocation :=
  option_map snd (List.find (fun e => Qeq_bool (fst e) loc) (connections_by_location ring)).

(** The [forward_to] computation of [update_state]. *)
Definition forward_target (ring : Ring) (req_peer : PeerKey) (hops_to_live : nat)
    (new_location : Q) (rnd : nat) : option PeerKeyLocation :=
  if Nat.leb (rnd_if_htl_above ring) hops_to_live then
    random_peer ring (fun p => negb (Nat.eqb (pkl_peer p) req_peer)) rnd
  else
    match conn_get ring new_location with
    | Some it => if Nat.eqb (pkl_peer it) req_peer then None else Some it
    | None => None
    end.

Inductive OpError :=
| IllegalStateTransition
| TxUpdateFailure (tx : Transaction)
| TransportError.

Record OperationResult := {
  return_msg : option Message.t;
  op_state : option JRState.t
}.

(** Sends through the [ConnectionBridge] are recorded in order; [send_ok]
    says whether the transport delivered a given send. *)
Definition Sends := list (PeerKeyLocation * Message.t).
Definition M (A : Type) : Type := Sends -> Sends * res OpError A.

Definition mret {A} (a : A) : M A := fun s => (s, ROk a).
Definition mfail {A} (e : OpError) : M A := fun s => (s, RErr e).
Definition mpanic {A} : M A := fun s => (s, RPanic).
Definition mbind {A B} (m : M A) (k : A -> M B) : M B :=
  fun s => match m s with
           | (s', ROk a) => k a s'
           | (s', RErr e) => (s', RErr e)
           | (s', RPanic) => (s', RPanic)
           end.
Definition mlift {A} (r : res OpError A) : M A := fun s => (s, r).

Notation "'let*' x ':=' m 'in' k" := (mbind m (fun x => k))
  (at level 200, x name, m at level 100, k at level 200).

(** [conn_manager.send(&target, msg).await?] *)
Definition send (send_ok : PeerKeyLocation -> Message.t -> bool)
    (target : PeerKeyLocation) (msg : Message.t) : M unit :=
  fun s => (s ++ [(target, msg)],
            if send_ok target msg then ROk tt else RErr TransportError).

(** [usize] subtraction with overflow checks. *)
Definition usize_sub {E} (a b : nat) : res E nat :=
  if Nat.leb b a then ROk (a - b)%nat else RPanic.

(** [update_state]: [new_location] is the value drawn by
    [Location::random()] and [rnd] the draw of [random_peer]. *)
Definition update_state (send_ok : PeerKeyLocation -> Message.t -> bool)
    (state : JRState.t) (other_host_msg : JoinRingMsg.t) (ring : Ring)
    (new_location : Q) (rnd : nat) : M OperationResult :=
  match other_host_msg with
  | JoinRingMsg.Req id (JoinRequest.Initial your_location req_peer hops_to_live _) =>
      match pkl_location your_location with
      | None => mfail (TxUpdateFailure id)
      | Some my_loc =>
          let accepted_by :=
            if should_accept ring my_loc new_location then [your_location] else [] in
          let join_response :=
            Message.JoinRing (JoinRingMsg.Resp id your_location
              (JoinResponse.Initial accepted_by new_location req_peer)) in
          let new_peer_loc := {| pkl_peer := req_peer; pkl_location := Some new_location |} in
          if Nat.ltb 0 hops_to_live
             && negb (Nat.eqb (length (connections_by_location ring)) 0) then
            match forward_target ring req_peer hops_to_live new_location rnd with
            | Some forward_to =>
                let* htl := mlift (usize_sub (Nat.min hops_to_live (ring_max_hops_to_live ring)) 1) in
                let forwarded :=
                  Message.JoinRing (JoinRingMsg.Req id (JoinRequest.Proxy new_peer_loc htl)) in
                let* _ := send send_ok forward_to forwarded in
                (* todo!() *)
                mpanic
            | None =>
                mret {| return_msg := Some join_response; op_state := Some state |}
            end
          else
            mret {| return_msg := Some join_response; op_state := Some state |}
      end
  | JoinRingMsg.Req _ (JoinRequest.Proxy _ _) => mpanic
  | JoinRingMsg.Resp _ _ (JoinResponse.Initial _ _ _) => mpanic
  | JoinRingMsg.Resp _ _ (JoinResponse.Proxy _) => mpanic
  | JoinRingMsg.Resp _ _ (JoinResponse.ReceivedOC _) => mpanic
  | JoinRingMsg.Connected => mpanic
  end.

Module Operation.
Inductive t :=
| JoinRing (state : JRState.t)
| Other.
End Operation.

(** Modelled from the spec: [OpStateStorage] (node.rs is not part of the
    sources), a map [Transaction -> Operation] with [pop] and [push]. *)
Definition OpStateStorage := gmap Transaction Operation.t.

(** [join_ring_op]: returns the storage after the call when it succeeds
    (on an error the popped entry stays removed, as in the source). *)
Definition join_ring_op (send_ok : PeerKeyLocation -> Message.t -> bool)
    (op_storage : OpStateStorage) (ring : Ring) (join_op : JoinRingMsg.t)
    (new_location : Q) (rnd : nat) : M OpStateStorage :=
  let* tx := mlift (JoinRingMsg.id join_op) in
  let popped := op_storage !! tx in
  let op_storage := delete tx op_storage in
  let run (state : JRState.t) : M OpStateStorage :=
    let* sender := mlift (JoinRingMsg.sender join_op) in
    fun s =>
      match update_state send_ok state join_op ring new_location rnd s with
      | (s', RPanic) => (s', RPanic)
      | (s', RErr err) =>
          match sender with
          | Some sender =>
              (let* _ := send send_ok sender (Message.Canceled tx) in mfail err) s'
          | None => (s', RErr err)
          end
      | (s', ROk {| return_msg := Some msg; op_state := Some updated_state |}) =>
          (let* id := mlift (Message.id msg) in
           let* target := mlift (Message.sender msg) in
           let* _ := match target with
                     | Some target => send send_ok target msg
                     | None => mret tt
                     end in
           mret (<[id := Operation.JoinRing updated_state]> op_storage)) s'
      | (s', ROk {| return_msg := Some msg; op_state := None |}) =>
          (let* target := mlift (Message.sender msg) in
           let* _ := match target with
                     | Some target => send send_ok target msg
                     | None => mret tt
                     end in
           mret op_storage) s'
      | (s', ROk {| return_msg := None; op_state := None |}) => (s', ROk op_storage)
      | (s', ROk {| return_msg := None; op_state := Some _ |}) =>
          (* unreachable!() *) (s', RPanic)
      end in
  match popped with
  | Some (Operation.JoinRing state) => run state
  | Some Operation.Other => mfail (TxUpdateFailure tx)
  | None => run JRState.Initializing
  end.

(** ** Inbox model (freenet-email-app/web/src/inbox.rs)

    The message content and token assignment are type parameters: the
    operations below only move them around.  Of [InternalSettings] only
    [next_msg_id] is used here. *)

Definition u64_max : Z := 2 ^ 64 - 1.

Record MessageModel (C T : Type) := {
  mm_id : Z;
  mm_content : C;
  mm_token_assignment : T
}.
Arguments mm_id {C T} _.

Record InboxModel (C T : Type) := {
  messages : list (MessageModel C T);
  next_msg_id : Z
}.
Arguments messages {C T} _.
Arguments next_msg_id {C T} _.

Section Inbox.
Context {C T : Type}.

(** [InboxModel::from_state] once the stored messages are decrypted: ids
    are the enumeration indices and [next_msg_id] is [messages.len()]. *)
Definition inbox_from_state (decrypted : list (C * T)) : InboxModel C T :=
  {| messages := imap (fun i ct => {| mm_id := Z.of_nat i; mm_content := fst ct;
                                      mm_token_assignment := snd ct |}) decrypted;
     next_msg_id := Z.of_nat (length decrypted) |}.

(** [InboxModel::add_received_message]: push, then [next_msg_id += 1]
    (a [u64] addition with overflow checks). *)
Definition add_received_message (m : InboxModel C T) (content : C) (token_assignment : T)
    : res unit (InboxModel C T) :=
  let msgs := messages m ++ [{| mm_id := next_msg_id m; mm_content := content;
                                mm_token_assignment := token_assignment |}] in
  if next_msg_id m + 1 <=? u64_max
  then ROk {| messages := msgs; next_msg_id := next_msg_id m + 1 |}
  else RPanic.

(** std's [binary_search_by]: [left]/[right] bounds with [size = right - left]
    and [mid = left + size / 2]; [inl] is [Ok], [inr] is [Err].  The loop
    runs at most [length] times, the fuel given below. *)
Fixpoint bs_loop (fuel : nat) (keys : list Z) (x : Z) (left right : nat) : nat + nat :=
  match fuel with
  | O => inr left
  | S f =>
      if Nat.ltb left right then
        let mid := (left + (right - left) / 2)%nat in
        match Z.compare (nth mid keys 0) x with
        | Eq => inl mid
        | Lt => bs_loop f keys x (S mid) right
        | Gt => bs_loop f keys x left mid
        end
      else inr left
  end.

(** [messages.binary_search_by_key(id, |a| a.id)] *)
Definition binary_search_by_key (msgs : list (MessageModel C T)) (x : Z) : nat + nat :=
  bs_loop (S (length msgs)) (map mm_id msgs) x 0 (length msgs).

(** [InboxModel::remove_received_message] *)
Definition remove_received_message (m : InboxModel C T) (ids : list Z) : InboxModel C T :=
  if Nat.ltb 1 (length ids) then
    {| messages := List.filter (fun a => negb (existsb (Z.eqb (mm_id a)) ids)) (messages m);
       next_msg_id := next_msg_id m |}
  else
    {| messages := fold_left (fun msgs id =>
                               match binary_search_by_key msgs id with
                               | inl p => delete p msgs
                               | inr _ => msgs
                               end) ids (messages m);
       next_msg_id := next_msg_id m |}.

(** The invariant the claims speak of: ids strictly increasing, all below
    [next_msg_id], which is a [u64]. *)
Definition inbox_inv (m : InboxModel C T) : Prop :=
  StronglySorted (fun a b => mm_id a < mm_id b) (messages m)
  /\ Forall (fun a => 0 <= mm_id a < next_msg_id m) (messages m)
  /\ 0 <= next_msg_id m <= u64_max.

End Inbox.

(** ** The [hex] crate's [encode] and [decode_to_slice] (used by
    [ContractKey::hex_decode], [hex_encode] and the [Display] impls) *)

Definition HEX_CHARS_LOWER : list Z :=
  [48; 49; 50; 51; 52; 53; 54; 55; 56; 57; 97; 98; 99; 100; 101; 102].

(** [hex::encode]: per byte, the table entry of the high nibble, then of
    the low nibble; a [String] is its list of (here ASCII) bytes. *)
Definition hex_encode_bytes (data : list Z) : list Z :=
  flat_map (fun byte =>
              [nth (Z.to_nat (Z.shiftr (Z.land byte 0xf0) 4)) HEX_CHARS_LOWER 0;
               nth (Z.to_nat (Z.land byte 0x0f)) HEX_CHARS_LOWER 0]) data.

Inductive FromHexError :=
| InvalidHexCharacter (c : Z) (index : nat)
| OddLength
| InvalidStringLength.

(** [hex]'s [val(c, idx)]. *)
Definition hex_val (c : Z) (idx : nat) : res FromHexError Z :=
  if (65 <=? c) && (c <=? 70) then ROk (c - 65 + 10)
  else if (97 <=? c) && (c <=? 102) then ROk (c - 97 + 10)
  else if (48 <=? c) && (c <=? 57) then ROk (c - 48)
  else RErr (InvalidHexCharacter c idx).

(** The loop of [decode_to_slice] from output index [i], [n] bytes left:
    [*byte = val(data[2 * i], 2 * i)? << 4 | val(data[2 * i + 1], 2 * i + 1)?]
    ([<<] on a [u8] drops the high bits). *)
Fixpoint hex_decode_pairs (data : list Z) (i n : nat) : res FromHexError (list Z) :=
  match n with
  | O => ROk []
  | S n' =>
      let? hi := hex_val (nth (2 * i) data 0) (2 * i) in
      let? lo := hex_val (nth (2 * i + 1) data 0) (2 * i + 1) in
      let? rest := hex_decode_pairs data (S i) n' in
      ROk (Z.lor (Z.land (Z.shiftl hi 4) 255) lo :: rest)
  end.

(** [hex::decode_to_slice(data, out)] with [out.len() = out_len]: the
    filled [out] on success. *)
Definition decode_to_slice (data : list Z) (out_len : nat) : res FromHexError (list Z) :=
  if negb (Nat.eqb (length data mod 2) 0) then RErr OddLength
  else if negb (Nat.eqb (length data / 2) out_len) then RErr InvalidStringLength
  else hex_decode_pairs data 0 out_len.

(** [ContractKey::hex_decode]: [encoded_contract] decoded into a
    [[u8; 64]], then [Blake2b512] over it followed by the parameters. *)
Definition hex_decode (encoded_contract parameters : list Z) : res FromHexError ContractKey :=
  let? contract := decode_to_slice encoded_contract 64 in
  let full_key_arr := blake2b512 (contract ++ parameters) in
  let? spec := copy_from_slice CONTRACT_KEY_SIZE full_key_arr in
  ROk {| ck_spec := spec; ck_contract := contract |}.

(** [ContractKey::hex_encode]: [hex::encode(self.spec)]. *)
Definition hex_encode (k : ContractKey) : list Z := hex_encode_bytes (ck_spec k).

(** ** [Display] for [ContractKey] and [ContractData]

    The text written to the formatter, as its list of characters (Unicode
    scalar values; [char::from(u8)] is the identity on the value).  The
    formatter's own write errors are not modelled. *)

Definition ascii_bytes (s : string) : list Z :=
  map (fun a => Z.of_nat (Ascii.nat_of_ascii a)) (String.list_ascii_of_string s).

(** [internal_fmt_key]: the first 8 characters of [hex::encode(key)]
    ([&r[..8]] panics on a shorter string). *)
Definition internal_fmt_key {E} (key : list Z) : res E (list Z) :=
  let r := hex_encode_bytes key in
  if Nat.leb 8 (length r) then ROk (firstn 8 r) else RPanic.

Definition contract_key_fmt {E} (k : ContractKey) : res E (list Z) :=
  let? h := internal_fmt_key (ck_spec k) in
  ROk (ascii_bytes "ContractKey(" ++ h ++ ascii_bytes ")").

(** The [data] string of [ContractData]'s [fmt]: above 8 bytes,
    [data[..4]], then ["..."], then [data[4..]]. *)
Definition contract_data_str (data : list Z) : list Z :=
  if Nat.ltb 8 (length data) then firstn 4 data ++ ascii_bytes "..." ++ skipn 4 data
  else data.

Definition contract_data_fmt {E} (cd : ContractData) : res E (list Z) :=
  let? h := internal_fmt_key (cd_key cd) in
  ROk (ascii_bytes "Contract( key: " ++ h ++ ascii_bytes ", data: ["
       ++ contract_data_str (cd_data cd) ++ ascii_bytes "])").

(** [ContractSpecification::new]: the key is [ContractKey::from] of the
    parameters and the contract. *)
Definition contract_specification_new {E} (contract : ContractData) (parameters : list Z)
    : res E ContractSpecification :=
  let? key := contract_key_from parameters contract in
  ROk {| cs_parameters := parameters; cs_contract := contract; cs_key := key |}.

(** ** [UpdateResult] and its conversions (interface.rs) *)

Inductive ContractError := InvalidUpdate.

Inductive UpdateResult := ValidUpdate | ValidNoChange | Invalid.

(** The [#[repr(i32)]] discriminants. *)
Definition update_result_as_i32 (r : UpdateResult) : Z :=
  match r with
  | ValidUpdate => 0
  | ValidNoChange => 1
  | Invalid => 2
  end.

(** [impl From<ContractError> for UpdateResult] *)
Definition update_result_from_error (err : ContractError) : UpdateResult :=
  match err with
  | InvalidUpdate => Invalid
  end.

(** [impl TryFrom<i32> for UpdateResult] *)
Definition update_result_try_from (value : Z) : res unit UpdateResult :=
  match value with
  | 0 => ROk ValidUpdate
  | 1 => ROk ValidNoChange
  | 2 => ROk Invalid
  | _ => RErr tt
  end.

(** ** Starting a join (join_ring.rs) *)

(** [JoinRingOp::initial_request]: a new machine consumes the initial
    request, with [hops_to_live = max_hops_to_live]; [.unwrap()] panics on
    a refused transition.  [id] is the fresh [Transaction::new(..)]. *)
Definition initial_request {E} (id : Transaction) (req_peer : PeerKey)
    (target_loc : PeerKeyLocation) (max_hops_to_live : nat) : res E JRState.t :=
  let '(sm, r) := consume JRState.Initializing
                    (JoinRingMsg.Req id (JoinRequest.Initial target_loc req_peer
                                          max_hops_to_live max_hops_to_live)) in
  match r with
  | ROk _ => ROk sm
  | _ => RPanic
  end.

(** [JRState::try_unwrap_connecting] *)
Definition try_unwrap_connecting (s : JRState.t) : res OpError ConnectionInfo :=
  match s with
  | JRState.Connecting conn_info => ROk conn_info
  | _ => RErr IllegalStateTransition
  end.

(** The [ConnError] raised by [initial_join_request]; the source's [OpError]
    wraps it (its [From<ConnError>]), here the sum [JoinError]. *)
Inductive ConnError := LocationUnknown.

Inductive JoinError :=
| JoinOpError (e : OpError)
| JoinConnError (e : ConnError).

(** [initial_join_request]: [added] records the bridge's [add_connection]
    calls, [sent] its sends; [tx] is the fresh [Transaction::new(..)];
    [op_storage.push] is the insert of [join_ring_op].  The
    [gateway.location.ok_or(ConnError::LocationUnknown)?] sits inside the
    arguments of [log::info!], which the [log] macro evaluates only when the
    [Info] level is enabled ([info_enabled]); otherwise the location is
    never checked. *)
Definition initial_join_request (info_enabled : bool)
    (send_ok : PeerKeyLocation -> Message.t -> bool)
    (op_storage : OpStateStorage) (join_op : JRState.t) (tx : Transaction)
    (added : list (PeerKeyLocation * bool)) (sent : Sends)
    : list (PeerKeyLocation * bool) * Sends * res JoinError OpStateStorage :=
  let join :=
    fun gateway this_peer max_hops_to_live =>
      let added := added ++ [(gateway, true)] in
      let join_req :=
        Message.JoinRing (JoinRingMsg.Req tx
          (JoinRequest.Initial gateway this_peer max_hops_to_live max_hops_to_live)) in
      match send send_ok gateway join_req sent with
      | (sent, ROk _) => (added, sent, ROk (<[tx := Operation.JoinRing join_op]> op_storage))
      | (sent, RErr e) => (added, sent, RErr (JoinOpError e))
      | (sent, RPanic) => (added, sent, RPanic)
      end in
  match try_unwrap_connecting join_op with
  | RErr e => (added, sent, RErr (JoinOpError e))
  | RPanic => (added, sent, RPanic)
  | ROk {| gateway := gateway; this_peer := this_peer;
           ci_max_hops_to_live := max_hops_to_live |} =>
      if info_enabled then
        match pkl_location gateway with
        | None => (added, sent, RErr (JoinConnError LocationUnknown))
        | Some _ => join gateway this_peer max_hops_to_live
        end
      else join gateway this_peer max_hops_to_live
  end.

(** ** More of the inbox (inbox.rs) *)

Arguments mm_content {C T} _.
Arguments mm_token_assignment {C T} _.

Section InboxMore.
Context {C T : Type}.
(** [TokenAssignment::assignment_hash], a [[u8; 32]]. *)
Variable assignment_hash : T -> list Z.

(** [InboxModel::remove_messages] up to the signing and the request: the
    in-memory removal, then [signed] (the hashes concatenated) and [ids]
    (the hashes) over [self.messages] after the removal. *)
Definition remove_messages (m : InboxModel C T) (ids : list Z)
    : InboxModel C T * (list Z * list (list Z)) :=
  let m := remove_received_message m ids in
  let hs := map (fun msg => assignment_hash (mm_token_assignment msg)) (messages m) in
  (m, (concat hs, hs)).

End InboxMore.

(** The stored content of a message, past the encryption primitives
    (XChaCha20Poly1305 and RSA are external; their outputs are inputs
    here).  [DecryptedMessage::to_stored] concatenates the nonce, the
    encrypted key and the encrypted data: *)
Definition stored_content (chacha_nonce encrypted_key encrypted_data : list Z) : list Z :=
  chacha_nonce ++ encrypted_key ++ encrypted_data.

(** [.try_into::<[u8; n]>().unwrap()] *)
Definition try_into_unwrap {E} (n : nat) (l : list Z) : res E (list Z) :=
  if Nat.eqb (length l) n then ROk l else RPanic.

(** The [assignment_hash] set by [DecryptedMessage::to_stored]. *)
Definition stored_assignment_hash {E} (content : list Z) : res E (list Z) :=
  try_into_unwrap 32 (blake2s256 content).

(** The cursor reads of [InboxModel::from_state] on a stored content:
    [read_exact] into [vec![0; 24]] (nonce), into [vec![0; 512]]
    (encrypted key), then [read_to_end]. *)
Definition split_stored_content (content : list Z)
    : res IoError (list Z * list Z * list Z) :=
  let? r := read_exact (repeat 0 24) content in
  let nonce := fst r in
  let? r := read_exact (repeat 0 512) (snd r) in
  ROk (nonce, fst r, snd r).

(** ** Helpers of the properties *)

(** ASCII upper-casing of the hex letters [a]..[f] (other bytes kept). *)
Definition hex_upper (c : Z) : Z := if (97 <=? c) && (c <=? 102) then c - 32 else c.

(** Feeding a machine a sequence of inputs, one [consume] call each. *)
Fixpoint consume_all (s : JRState.t) (inputs : list JoinRingMsg.t)
    : JRState.t * list (res TransitionImpossibleError (option JoinRingMsg.t)) :=
  match inputs with
  | [] => (s, [])
  | i :: rest =>
      match consume s i with
      | (s', r) => match consume_all s' rest with
                   | (sf, rs) => (sf, r :: rs)
                   end
      end
  end.

Definition is_accepted {E A} (r : res E A) : bool :=
  match r with ROk _ => true | _ => false end.

(** How many transitions separate a state from [Connected]. *)
Definition jr_rank (s : JRState.t) : nat :=
  match s with
  | JRState.Initializing => 3
  | JRState.Connecting _ => 2
  | JRState.OCReceived => 1
  | JRState.Connected => 0
  end.

Definition is_canceled (m : Message.t) : bool :=
  match m with Message.Canceled _ => true | _ => false end.

(** The [retain] predicate of [remove_received_message]: the message's
    id is not among [ids]. *)
Definition keep_unlisted {C T} (ids : list Z) (a : MessageModel C T) : bool :=
  negb (existsb (Z.eqb (mm_id a)) ids).

(** * Properties *)

(** ** Contract keys and spec envelopes *)

Lemma blake2_length (p : blake2_variant) (nn : nat) (data : list Z) :
  length (blake2 p nn data) = nn.
Proof. unfold blake2. now rewrite length_map, length_seq. Qed.

Lemma gen_key_panics {E} (data : list Z) : @gen_key E data = RPanic.
Proof.
  unfold gen_key, copy_from_slice, blake2s256.
  now rewrite blake2_length.
Qed.

Lemma contract_data_from_panics {E} (data : list Z) : @contract_data_from E data = RPanic.
Proof. unfold contract_data_from. now rewrite gen_key_panics. Qed.

(** C1 (code defect): deriving a contract key from [(code, parameters)]
    never succeeds: [ContractData::gen_key] copies the 32-byte [Blake2s256]
    digest into a 64-byte array, which panics for every code. *)
Theorem derive_key_always_panics {E} (code parameters : list Z) :
  @derive_key E code parameters = RPanic
  /\ @contract_data_from E code = RPanic
  /\ length (blake2s256 code) = 32%nat.
Proof.
  split; [|split].
  - unfold derive_key. now rewrite contract_data_from_panics.
  - apply contract_data_from_panics.
  - apply blake2_length.
Qed.

Lemma le_to_Z_bytes_le (k : nat) (n : Z) :
  0 <= n < 2 ^ (8 * Z.of_nat k) -> le_to_Z (bytes_le k n) = n.
Proof.
  revert n. induction k as [|k IH]; intros n Hn; simpl.
  - lia.
  - rewrite IH.
    + pose proof (Z.div_mod n 256). lia.
    + split; [apply Z.div_pos; lia|].
      apply Z.div_lt_upper_bound; [lia|].
      replace (8 * Z.of_nat (S k)) with (8 + 8 * Z.of_nat k) in Hn by lia.
      rewrite Z.pow_add_r in Hn by lia. lia.
Qed.

Lemma length_bytes_le (k : nat) (n : Z) : length (bytes_le k n) = k.
Proof. revert n. induction k; intros n; simpl; auto. Qed.

Lemma read_u64_le_bytes (n : Z) (rest : list Z) :
  0 <= n < 2 ^ 64 -> read_u64_le (bytes_le 8 n ++ rest) = ROk (n, rest).
Proof.
  intros Hn. unfold read_u64_le.
  rewrite length_app, length_bytes_le. simpl Nat.ltb. cbv iota.
  assert (firstn 8 (bytes_le 8 n ++ rest) = bytes_le 8 n) as ->.
  { rewrite firstn_app, length_bytes_le, Nat.sub_diag, firstn_O, app_nil_r.
    apply firstn_all2. rewrite length_bytes_le. lia. }
  assert (skipn 8 (bytes_le 8 n ++ rest) = rest) as ->.
  { rewrite skipn_app, length_bytes_le, Nat.sub_diag, skipn_O.
    rewrite skipn_all2; [reflexivity|rewrite length_bytes_le; lia]. }
  rewrite le_to_Z_bytes_le; [reflexivity|exact Hn].
Qed.

Lemma read_exact_repeat (n : nat) (l rest : list Z) :
  length l = n -> read_exact (repeat 0 n) (l ++ rest) = ROk (l, rest).
Proof.
  intros Hl. unfold read_exact. rewrite repeat_length, length_app.
  replace (Nat.leb n (length l + length rest)) with true
    by (symmetry; apply Nat.leb_le; lia).
  subst n. now rewrite take_app_length, drop_app_length.
Qed.

Lemma vec_zeroed_small {E} (n : Z) :
  n <= isize_max -> @vec_zeroed E n = ROk (repeat 0 (Z.to_nat n)).
Proof. intros H. unfold vec_zeroed. now rewrite (proj2 (Z.leb_le _ _) H). Qed.

Lemma read_spec_parts_encode (params code rest : list Z) :
  Z.of_nat (length params) <= isize_max ->
  Z.of_nat (length code) <= isize_max ->
  read_spec_parts (encode_spec params code ++ rest) = ROk (params, code).
Proof.
  intros Hp Hc. unfold read_spec_parts, encode_spec.
  rewrite <- !app_assoc.
  rewrite read_u64_le_bytes by (unfold isize_max in *; lia). cbn [fst snd res_bind].
  rewrite vec_zeroed_small by exact Hp. cbn [res_bind].
  rewrite Nat2Z.id, read_exact_repeat by reflexivity. cbn [fst snd res_bind].
  rewrite read_u64_le_bytes by (unfold isize_max in *; lia). cbn [fst snd res_bind].
  rewrite vec_zeroed_small by exact Hc. cbn [res_bind].
  rewrite Nat2Z.id, read_exact_repeat by reflexivity.
  reflexivity.
Qed.

(** C2 (as amended): decoding a blob reads
    [u64 params_len || params || u64 contract_code_len || contract_code];
    it returns an error exactly when that reading fails; a well-formed blob
    is never rejected with an error, whatever its code; and when decoding
    succeeds, the key is [ContractKey::from] of the decoded parameters and
    contract.  No advertised key is taken or compared. *)
Theorem spec_try_from_no_key_check :
  (forall (params code rest : list Z),
     Z.of_nat (length params) <= isize_max ->
     Z.of_nat (length code) <= isize_max ->
     read_spec_parts (encode_spec params code ++ rest) = ROk (params, code)
     /\ (forall e, spec_try_from (encode_spec params code ++ rest) <> RErr e))
  /\ (forall (data : list Z) (e : IoError),
        spec_try_from data = RErr e <-> read_spec_parts data = RErr e)
  /\ (forall (data : list Z) (s : ContractSpecification),
        spec_try_from data = ROk s ->
        read_spec_parts data = ROk (cs_parameters s, cd_data (cs_contract s))
        /\ contract_key_from (cs_parameters s) (cs_contract s) = @ROk IoError _ (cs_key s)).
Proof.
  split; [|split].
  - intros params code rest Hp Hc.
    pose proof (read_spec_parts_encode params code rest Hp Hc) as Hr.
    split; [exact Hr|].
    intros e. unfold spec_try_from. rewrite Hr. cbn [res_bind fst snd].
    rewrite contract_data_from_panics. discriminate.
  - intros data e. unfold spec_try_from.
    destruct (read_spec_parts data) as [[p c]| e'|]; cbn [res_bind fst snd].
    + rewrite contract_data_from_panics. split; discriminate.
    + destruct e, e'; split; reflexivity.
    + split; discriminate.
  - intros data s. unfold spec_try_from.
    destruct (read_spec_parts data) as [[p c]| e'|]; cbn [res_bind fst snd]; try discriminate.
    all: rewrite contract_data_from_panics; discriminate.
Qed.

Definition genuine_blob : list Z := encode_spec [7] [1; 2; 3].
Definition forged_blob : list Z := encode_spec [7] [4; 5; 6].

(** C2 (counterexample): the forged blob [(code', params)] with
    [code' <> code] is read without error and gets exactly the outcome of
    the genuine blob: the decoder compares against no key. *)
Lemma spec_try_from_forged_not_rejected :
  read_spec_parts forged_blob = ROk ([7], [4; 5; 6])
  /\ spec_try_from forged_blob = spec_try_from genuine_blob
  /\ match spec_try_from forged_blob with RErr _ => False | _ => True end.
Proof. vm_compute. repeat split. Qed.

(** ** Peer time estimator *)

Definition peer_count (p : PeerId) (hist : list RoutingEvent) : nat :=
  length (List.filter (fun ev => Nat.eqb (ev_peer ev) p) hist).

Lemma collect_lookup (hist : list RoutingEvent)
    (acc : list Point * gmap PeerId (list Point)) (p : PeerId) :
  snd (fold_left collect_step hist acc) !! p =
    if Nat.eqb (peer_count p hist) 0 then snd acc !! p
    else Some (default [] (snd acc !! p)
               ++ map event_point (List.filter (fun ev => Nat.eqb (ev_peer ev) p) hist)).
Proof.
  unfold peer_count. revert acc.
  induction hist as [|ev hist IH]; intros acc; simpl.
  - reflexivity.
  - rewrite IH. unfold collect_step; simpl.
    destruct (Nat.eqb_spec (ev_peer ev) p) as [<-|Hne]; simpl.
    + rewrite lookup_insert_eq. simpl.
      destruct (List.filter _ hist); simpl; now rewrite ?app_nil_r, <- ?app_assoc.
    + now rewrite lookup_insert_ne by congruence.
Qed.

Section EstimatorProofs.
Context {R : Type}.
Variable new_ascending : list Point -> R.
Variable add_points : R -> list Point -> R.
Variable reg_len : R -> nat.
Variable interpolate : R -> Q -> Q.

Lemma estimator_new_no_peer_regression (hist : list RoutingEvent) (p : PeerId) :
  (peer_count p hist <= MIN_PEER_POINTS_FOR_REGRESSION)%nat ->
  peer_regressions (estimator_new new_ascending hist) !! p = None.
Proof.
  intros Hc. unfold estimator_new; simpl. rewrite lookup_omap, collect_lookup.
  simpl. destruct (Nat.eqb _ 0) eqn:E0; [reflexivity|]. simpl.
  rewrite lookup_empty. simpl. rewrite length_map. unfold peer_count in Hc.
  destruct (Nat.ltb_spec MIN_PEER_POINTS_FOR_REGRESSION
              (length (List.filter (fun ev => Nat.eqb (ev_peer ev) p) hist))); [lia|].
  reflexivity.
Qed.

Lemma add_event_lookup (est : PeerTimeEstimator R) (ev : RoutingEvent) (p : PeerId) :
  peer_regressions (add_event new_ascending add_points est ev) !! p =
    if Nat.eqb (ev_peer ev) p
    then Some (add_points (match peer_regressions est !! ev_peer ev with
                           | Some r => r
                           | None => new_ascending [event_point ev]
                           end) [event_point ev])
    else peer_regressions est !! p.
Proof.
  unfold add_event; simpl.
  destruct (Nat.eqb_spec (ev_peer ev) p) as [<-|Hne].
  - now rewrite lookup_insert_eq.
  - now rewrite lookup_insert_ne by congruence.
Qed.

Lemma add_events_other_peers (evs : list RoutingEvent) (est : PeerTimeEstimator R) (p : PeerId) :
  Forall (fun ev => ev_peer ev <> p) evs ->
  peer_regressions (fold_left (add_event new_ascending add_points) evs est) !! p =
    peer_regressions est !! p.
Proof.
  revert est. induction evs as [|ev evs IH]; intros est Hf; simpl; [reflexivity|].
  inversion Hf as [|? ? Hne Hf']; subst.
  rewrite IH by exact Hf'. rewrite add_event_lookup.
  destruct (Nat.eqb_spec (ev_peer ev) p); [contradiction|reflexivity].
Qed.

Lemma add_events_some_peer (evs : list RoutingEvent) (est : PeerTimeEstimator R) (p : PeerId) :
  (exists ev, In ev evs /\ ev_peer ev = p) ->
  exists r, peer_regressions (fold_left (add_event new_ascending add_points) evs est) !! p = Some r.
Proof.
  revert est. induction evs as [|ev evs IH]; intros est [ev' [Hin Hp]]; simpl in *.
  - contradiction.
  - destruct (existsb (fun e => Nat.eqb (ev_peer e) p) evs) eqn:Eb.
    + apply existsb_exists in Eb as [x [Hx Hxp]].
      apply IH. exists x. split; [exact Hx|]. now apply Nat.eqb_eq.
    + assert (Hf : Forall (fun e => ev_peer e <> p) evs).
      { apply List.Forall_forall. intros x Hx Hxp.
        assert (existsb (fun e => Nat.eqb (ev_peer e) p) evs = true) as Ht
          by (apply existsb_exists; exists x; split; [exact Hx|now apply Nat.eqb_eq]).
        congruence. }
      destruct Hin as [<-|Hin].
      * rewrite add_events_other_peers by exact Hf.
        rewrite add_event_lookup, (proj2 (Nat.eqb_eq _ _) Hp). eauto.
      * exfalso. rewrite List.Forall_forall in Hf. exact (Hf ev' Hin Hp).
Qed.

(** C3 (as amended): a peer with at most [MIN_PEER_POINTS_FOR_REGRESSION]
    observations in the history given to [new], and no [add_event] for it
    since, has no per-peer regression, and its estimate is the global
    interpolation when the global regression has more than
    [MIN_PEER_POINTS_FOR_REGRESSION] points ([None] otherwise); as soon as
    [add_event] has recorded one event of the peer, the peer has its own
    regression and its estimate is that regression's interpolation. *)
Theorem estimate_peer_threshold_and_add_event
    (hist evs : list RoutingEvent) (p : PeerId) (d : Q) :
  let est := fold_left (add_event new_ascending add_points) evs
                       (estimator_new new_ascending hist) in
  ((peer_count p hist <= MIN_PEER_POINTS_FOR_REGRESSION)%nat ->
   Forall (fun ev => ev_peer ev <> p) evs ->
   peer_regressions est !! p = None
   /\ estimate_retrieval_time reg_len interpolate est p d =
        if Nat.ltb MIN_PEER_POINTS_FOR_REGRESSION (reg_len (global_regression est))
        then Some (interpolate (global_regression est) d) else None)
  /\ ((exists ev, In ev evs /\ ev_peer ev = p) ->
      exists r, peer_regressions est !! p = Some r
                /\ estimate_retrieval_time reg_len interpolate est p d
                   = Some (interpolate r d)).
Proof.
  intros est. split.
  - intros Hc Hf.
    assert (Hn : peer_regressions est !! p = None).
    { unfold est. rewrite add_events_other_peers by exact Hf.
      now apply estimator_new_no_peer_regression. }
    split; [exact Hn|]. unfold estimate_retrieval_time. now rewrite Hn.
  - intros Hex. destruct (add_events_some_peer evs (estimator_new new_ascending hist) p Hex)
      as [r Hr].
    exists r. split; [exact Hr|]. unfold estimate_retrieval_time. fold est in Hr.
    now rewrite Hr.
Qed.

End EstimatorProofs.

Definition event_at (peer : PeerId) (result : Q) : RoutingEvent :=
  {| ev_peer := peer; ev_peer_location := 0; ev_contract_location := 1 # 4;
     ev_result := result |}.

(** C3 (witness): eleven events of peer 1 at construction, then one event
    of peer 3 recorded with [add_event]. *)
Lemma estimate_peer_threshold_and_add_event_witness :
  ((peer_count 2%nat (repeat (event_at 1%nat 1) 11) <= MIN_PEER_POINTS_FOR_REGRESSION)%nat
   /\ Forall (fun ev => ev_peer ev <> 2%nat) [event_at 3%nat 5]
   /\ estimate_retrieval_time (@length Point) points_regression_interpolate
        (fold_left (add_event id app) [event_at 3%nat 5]
                   (estimator_new id (repeat (event_at 1%nat 1) 11))) 2%nat 0
      = Some (points_regression_interpolate
                (global_regression (fold_left (add_event id app) [event_at 3%nat 5]
                   (estimator_new id (repeat (event_at 1%nat 1) 11)))) 0))
  /\ (exists ev, In ev [event_at 3%nat 5] /\ ev_peer ev = 3%nat).
Proof.
  assert (H1 : (peer_count 2%nat (repeat (event_at 1%nat 1) 11) <= MIN_PEER_POINTS_FOR_REGRESSION)%nat)
    by (vm_compute; lia).
  assert (H2 : Forall (fun ev => ev_peer ev <> 2%nat) [event_at 3%nat 5])
    by (repeat constructor; simpl; lia).
  assert (H3 : exists ev, In ev [event_at 3%nat 5] /\ ev_peer ev = 3%nat)
    by (exists (event_at 3%nat 5); split; [left; reflexivity|reflexivity]).
  split; [|exact H3].
  split; [exact H1|]. split; [exact H2|].
  rewrite (proj2 (proj1 (estimate_peer_threshold_and_add_event id app (@length Point)
            points_regression_interpolate (repeat (event_at 1%nat 1) 11) [event_at 3%nat 5] 2%nat 0)
            H1 H2)).
  reflexivity.
Defined.

(** C3 (counterexample): with eleven construction events of peer 1, one
    [add_event] of peer 3 already gives peer 3 its own regression, and its
    estimate is not the global interpolation although the global
    regression has twelve points. *)
Lemma add_event_creates_peer_regression :
  let est := add_event id app (estimator_new id (repeat (event_at 1%nat 1) 11)) (event_at 3%nat 5) in
  (peer_count 3%nat (repeat (event_at 1%nat 1) 11) + 1 <= MIN_PEER_POINTS_FOR_REGRESSION)%nat
  /\ peer_regressions est !! 3%nat <> None
  /\ (MIN_PEER_POINTS_FOR_REGRESSION < length (global_regression est))%nat
  /\ estimate_retrieval_time (@length Point) points_regression_interpolate est 3%nat 0
     <> Some (points_regression_interpolate (global_regression est) 0).
Proof.
  vm_compute. split; [lia|]. split; [discriminate|]. split; [lia|].
  intros H; inversion H.
Qed.

(** C2 (witness): a blob with parameters [[7]], code [[4; 5; 6]] and two
    trailing bytes. *)
Lemma spec_try_from_no_key_check_witness :
  Z.of_nat (length [7]) <= isize_max /\ Z.of_nat (length [4; 5; 6]) <= isize_max
  /\ read_spec_parts (encode_spec [7] [4; 5; 6] ++ [0; 0]) = ROk ([7], [4; 5; 6]).
Proof.
  assert (H1 : Z.of_nat (length [7]) <= isize_max) by (vm_compute; discriminate).
  assert (H2 : Z.of_nat (length [4; 5; 6]) <= isize_max) by (vm_compute; discriminate).
  split; [exact H1|]. split; [exact H2|].
  exact (proj1 (proj1 spec_try_from_no_key_check [7] [4; 5; 6] [0; 0] H1 H2)).
Defined.

(** ** Join-ring operation *)

(** C6: [Connected] is terminal and absorbing: no input moves it, and
    [consume] rejects every input with an error, keeping the state. *)
Theorem connected_is_absorbing (input : JoinRingMsg.t) :
  transition JRState.Connected input = None
  /\ consume JRState.Connected input = (JRState.Connected, RErr TransitionImpossible).
Proof.
  destruct input as [? []|? ? []|]; split; reflexivity.
Qed.

(** C8: [id()] and [sender()] panic on the payload-less [Connected]
    message, and [join_ring_op], which reads the id first, panics on it
    before touching the storage or sending anything. *)
Theorem connected_msg_diverges {E} :
  @JoinRingMsg.id E JoinRingMsg.Connected = RPanic
  /\ @JoinRingMsg.sender E JoinRingMsg.Connected = RPanic
  /\ (forall send_ok op_storage ring new_location rnd (sent : Sends),
        join_ring_op send_ok op_storage ring JoinRingMsg.Connected new_location rnd sent
        = (sent, RPanic)).
Proof. split; [reflexivity|]. split; [reflexivity|]. intros. reflexivity. Qed.

(** The reply [update_state] builds for [Req::Initial]. *)
Definition initial_reply (ring : Ring) (id : Transaction) (your_location : PeerKeyLocation)
    (my_loc : Q) (req_peer : PeerKey) (new_location : Q) : Message.t :=
  Message.JoinRing (JoinRingMsg.Resp id your_location
    (JoinResponse.Initial
       (if should_accept ring my_loc new_location then [your_location] else [])
       new_location req_peer)).

Lemma update_state_initial_no_forward send_ok (state : JRState.t) (id : Transaction)
    (target_loc : PeerKeyLocation) (my_loc : Q) (req_peer : PeerKey)
    (hops_to_live max_hops_to_live : nat) (ring : Ring) (new_location : Q) (rnd : nat)
    (sent : Sends) :
  pkl_location target_loc = Some my_loc ->
  (hops_to_live = 0%nat \/ connections_by_location ring = []
   \/ forward_target ring req_peer hops_to_live new_location rnd = None) ->
  update_state send_ok state
    (JoinRingMsg.Req id (JoinRequest.Initial target_loc req_peer hops_to_live max_hops_to_live))
    ring new_location rnd sent
  = (sent, ROk {| return_msg := Some (initial_reply ring id target_loc my_loc req_peer new_location);
                  op_state := Some state |}).
Proof.
  intros Hloc Hcase. unfold update_state. rewrite Hloc.
  destruct (Nat.ltb 0 hops_to_live) eqn:Eh; [|reflexivity].
  destruct (Nat.eqb (length (connections_by_location ring)) 0) eqn:Ec; [reflexivity|].
  simpl. destruct Hcase as [->|[Hc|Hf]].
  - discriminate.
  - rewrite Hc in Ec. discriminate.
  - rewrite Hf. reflexivity.
Qed.

(** C10: on the non-forwarding paths of [Req::Initial] (no target,
    [hops_to_live = 0] or no neighbors) the operation comes back exactly
    as it went in, and nothing is sent. *)
Theorem non_forwarding_keeps_op_state send_ok (state : JRState.t) (id : Transaction)
    (target_loc : PeerKeyLocation) (my_loc : Q) (req_peer : PeerKey)
    (hops_to_live max_hops_to_live : nat) (ring : Ring) (new_location : Q) (rnd : nat)
    (sent : Sends) :
  pkl_location target_loc = Some my_loc ->
  (hops_to_live = 0%nat \/ connections_by_location ring = []
   \/ forward_target ring req_peer hops_to_live new_location rnd = None) ->
  exists reply,
    update_state send_ok state
      (JoinRingMsg.Req id (JoinRequest.Initial target_loc req_peer hops_to_live max_hops_to_live))
      ring new_location rnd sent
    = (sent, ROk {| return_msg := Some reply; op_state := Some state |}).
Proof.
  intros Hloc Hcase. eexists.
  exact (update_state_initial_no_forward send_ok state id target_loc my_loc req_peer
           hops_to_live max_hops_to_live ring new_location rnd sent Hloc Hcase).
Qed.

Local Open Scope nat_scope.

Definition gateway_pkl : PeerKeyLocation := {| pkl_peer := 1%nat; pkl_location := Some 0%Q |}.
Definition neighbor_pkl : PeerKeyLocation := {| pkl_peer := 7%nat; pkl_location := Some (1 # 2) |}.

(** A peer with one neighbor, peer 7 at location 1/2. *)
Definition one_neighbor_ring : Ring := {|
  connections_by_location := [(1 # 2, neighbor_pkl)];
  max_connections := 8; ring_max_hops_to_live := 5; rnd_if_htl_above := 3 |}.

Definition always_delivered (_ : PeerKeyLocation) (_ : Message.t) : bool := true.

(** C7 (code defect): a [Req::Initial] with [hops_to_live = 0], handled
    by peer 1 (at location 0) for the joiner 9, is answered without
    forwarding by [Resp::Initial { accepted_by, your_location,
    your_peer_id = 9 }], but the reply's [sender] field is [target_loc]
    and [join_ring_op] sends every reply to [msg.sender()]: the one message
    sent goes to peer 1, the handling peer itself, and nothing reaches the
    joiner. *)
Theorem initial_reply_sent_to_target_loc :
  join_ring_op always_delivered (∅ : OpStateStorage) one_neighbor_ring
    (JoinRingMsg.Req 0 (JoinRequest.Initial gateway_pkl 9 0 5)) (1 # 4) 0 []
  = ([(gateway_pkl, Message.JoinRing (JoinRingMsg.Resp 0 gateway_pkl
                      (JoinResponse.Initial [gateway_pkl] (1 # 4) 9)))],
     ROk (<[0 := Operation.JoinRing JRState.Initializing]> (∅ : OpStateStorage)))
  /\ pkl_peer gateway_pkl <> 9.
Proof. split; [vm_compute; reflexivity | vm_compute; discriminate]. Qed.

(** C10 (witness): [hops_to_live = 0] at a peer with one neighbor. *)
Lemma non_forwarding_keeps_op_state_witness :
  pkl_location gateway_pkl = Some 0%Q
  /\ (0%nat = 0%nat \/ connections_by_location one_neighbor_ring = []
      \/ forward_target one_neighbor_ring 9 0 (1 # 4) 0 = None)
  /\ exists reply,
       update_state always_delivered JRState.Initializing
         (JoinRingMsg.Req 0 (JoinRequest.Initial gateway_pkl 9 0 5))
         one_neighbor_ring (1 # 4) 0 []
       = ([], ROk {| return_msg := Some reply; op_state := Some JRState.Initializing |}).
Proof.
  assert (H1 : pkl_location gateway_pkl = Some 0%Q) by reflexivity.
  assert (H2 : 0%nat = 0%nat \/ connections_by_location one_neighbor_ring = []
               \/ forward_target one_neighbor_ring 9 0 (1 # 4) 0 = None)
    by (left; reflexivity).
  split; [exact H1|]. split; [exact H2|].
  exact (non_forwarding_keeps_op_state always_delivered JRState.Initializing 0 gateway_pkl 0%Q
           9 0 5 one_neighbor_ring (1 # 4) 0 [] H1 H2).
Defined.

(** The forwarded request of [update_state]. *)
Definition proxy_request (id : Transaction) (req_peer : PeerKey) (new_location : Q)
    (hops_to_live : nat) : Message.t :=
  Message.JoinRing (JoinRingMsg.Req id
    (JoinRequest.Proxy {| pkl_peer := req_peer; pkl_location := Some new_location |}
       hops_to_live)).

(** C4 (code defect): when a forward target exists, [hops_to_live > 0] and
    the neighbor set is nonempty, [update_state] sends
    [Req::Proxy { joiner, hops_to_live = min(hops_to_live, max_hops_to_live) - 1 }]
    to the target and then reaches [todo!()]: it panics (or fails, when the
    send fails) and returns no operation state at all. *)
Theorem forward_sends_proxy_then_panics send_ok (state : JRState.t) (id : Transaction)
    (target_loc : PeerKeyLocation) (my_loc : Q) (req_peer : PeerKey)
    (hops_to_live max_hops_to_live : nat) (ring : Ring) (new_location : Q) (rnd : nat)
    (forward_to : PeerKeyLocation) (sent : Sends) :
  pkl_location target_loc = Some my_loc ->
  0 < hops_to_live ->
  connections_by_location ring <> [] ->
  forward_target ring req_peer hops_to_live new_location rnd = Some forward_to ->
  1 <= Nat.min hops_to_live (ring_max_hops_to_live ring) ->
  let forwarded := proxy_request id req_peer new_location
                     (Nat.min hops_to_live (ring_max_hops_to_live ring) - 1) in
  update_state send_ok state
    (JoinRingMsg.Req id (JoinRequest.Initial target_loc req_peer hops_to_live max_hops_to_live))
    ring new_location rnd sent
  = (sent ++ [(forward_to, forwarded)],
     if send_ok forward_to forwarded then RPanic else RErr TransportError).
Proof.
  intros Hloc Hh Hc Hf Hm forwarded. unfold update_state. rewrite Hloc.
  rewrite (proj2 (Nat.ltb_lt 0 hops_to_live) Hh).
  destruct (connections_by_location ring) eqn:Ec; [contradiction|]. simpl.
  rewrite Hf. unfold mbind, mlift, usize_sub.
  rewrite (proj2 (Nat.leb_le 1 _) Hm). unfold send.
  unfold forwarded, proxy_request. now destruct (send_ok _ _).
Qed.

(** C4 (witness): [hops_to_live = 5] at or above [rnd_if_htl_above = 3],
    the random draw picks the only neighbor, peer 7. *)
Lemma forward_sends_proxy_then_panics_witness :
  pkl_location gateway_pkl = Some 0%Q
  /\ 0 < 5
  /\ connections_by_location one_neighbor_ring <> []
  /\ forward_target one_neighbor_ring 9 5 (1 # 4) 0 = Some neighbor_pkl
  /\ 1 <= Nat.min 5 (ring_max_hops_to_live one_neighbor_ring)
  /\ update_state always_delivered JRState.Initializing
       (JoinRingMsg.Req 0 (JoinRequest.Initial gateway_pkl 9 5 5))
       one_neighbor_ring (1 # 4) 0 []
     = ([(neighbor_pkl, proxy_request 0 9 (1 # 4) 4)], RPanic).
Proof.
  assert (H1 : pkl_location gateway_pkl = Some 0%Q) by reflexivity.
  assert (H2 : 0 < 5) by lia.
  assert (H3 : connections_by_location one_neighbor_ring <> []) by discriminate.
  assert (H4 : forward_target one_neighbor_ring 9 5 (1 # 4) 0 = Some neighbor_pkl)
    by reflexivity.
  assert (H5 : 1 <= Nat.min 5 (ring_max_hops_to_live one_neighbor_ring)) by (simpl; lia).
  split; [exact H1|]. split; [exact H2|]. split; [exact H3|]. split; [exact H4|].
  split; [exact H5|].
  exact (forward_sends_proxy_then_panics always_delivered JRState.Initializing 0 gateway_pkl
           0%Q 9 5 5 one_neighbor_ring (1 # 4) 0 neighbor_pkl [] H1 H2 H3 H4 H5).
Defined.

(** C5 (code defect): below [rnd_if_htl_above], the target is looked up
    with [connections_by_location.get(&new_location)], an exact-key lookup.
    With one neighbor (peer 7 at 1/2, the neighbor closest to the joiner's
    new location 1/4) no target is found and the request is answered
    without forwarding. *)
Theorem closest_branch_is_exact_lookup :
  1 < rnd_if_htl_above one_neighbor_ring
  /\ map snd (connections_by_location one_neighbor_ring) = [neighbor_pkl]
  /\ pkl_peer neighbor_pkl <> 9
  /\ forward_target one_neighbor_ring 9 1 (1 # 4) 0 = None
  /\ update_state always_delivered JRState.Initializing
       (JoinRingMsg.Req 0 (JoinRequest.Initial gateway_pkl 9 1 5))
       one_neighbor_ring (1 # 4) 0 []
     = ([], ROk {| return_msg := Some (initial_reply one_neighbor_ring 0 gateway_pkl 0%Q 9 (1 # 4));
                   op_state := Some JRState.Initializing |}).
Proof.
  split; [simpl; lia|]. split; [reflexivity|]. split; [discriminate|].
  split; reflexivity.
Qed.

(** ** Inbox model *)

Local Open Scope Z_scope.

Section InboxProofs.
Context {C T : Type}.

Lemma sublist_Forall {A} (P : A -> Prop) (l1 l2 : list A) :
  sublist l1 l2 -> Forall P l2 -> Forall P l1.
Proof.
  induction 1 as [|x l1 l2 _ IH|x l1 l2 _ IH]; intros Hf; [constructor| |].
  - inversion Hf; subst. constructor; auto.
  - inversion Hf; subst. auto.
Qed.

Lemma sublist_StronglySorted {A} (R : A -> A -> Prop) (l1 l2 : list A) :
  sublist l1 l2 -> StronglySorted R l2 -> StronglySorted R l1.
Proof.
  induction 1 as [|x l1 l2 Hs IH|x l1 l2 _ IH]; intros Hss; [constructor| |].
  - apply StronglySorted_inv in Hss as [Hss Hf].
    constructor; [auto|]. exact (sublist_Forall _ _ _ Hs Hf).
  - apply StronglySorted_inv in Hss as [Hss _]. auto.
Qed.

Lemma filter_sublist {A} (f : A -> bool) (l : list A) : sublist (List.filter f l) l.
Proof.
  induction l as [|x l IH]; simpl; [constructor|].
  destruct (f x); [apply sublist_skip|apply sublist_cons]; exact IH.
Qed.

Lemma remove_received_message_sublist (m : InboxModel C T) (ids : list Z) :
  sublist (messages (remove_received_message m ids)) (messages m).
Proof.
  unfold remove_received_message. destruct (Nat.ltb 1 (length ids)); simpl.
  - apply filter_sublist.
  - generalize (messages m) as msgs. induction ids as [|id ids IH]; intros msgs; simpl.
    + reflexivity.
    + etransitivity; [apply IH|].
      destruct (binary_search_by_key msgs id); [apply sublist_delete|reflexivity].
Qed.

Lemma remove_received_message_next (m : InboxModel C T) (ids : list Z) :
  next_msg_id (remove_received_message m ids) = next_msg_id m.
Proof. unfold remove_received_message. now destruct (Nat.ltb 1 (length ids)). Qed.

Lemma inbox_inv_remove (m : InboxModel C T) (ids : list Z) :
  inbox_inv m -> inbox_inv (remove_received_message m ids).
Proof.
  intros (Hs & Hf & Hn). pose proof (remove_received_message_sublist m ids) as Hsub.
  unfold inbox_inv. rewrite remove_received_message_next.
  split; [exact (sublist_StronglySorted _ _ _ Hsub Hs)|].
  split; [exact (sublist_Forall _ _ _ Hsub Hf)|exact Hn].
Qed.

Lemma StronglySorted_snoc {A} (R : A -> A -> Prop) (l : list A) (x : A) :
  StronglySorted R l -> Forall (fun y => R y x) l -> StronglySorted R (l ++ [x]).
Proof.
  induction l as [|y l IH]; intros Hs Hf; simpl.
  - repeat constructor.
  - apply StronglySorted_inv in Hs as [Hs Hy]. inversion Hf; subst.
    constructor; [auto|]. apply Forall_app; split; [exact Hy|]. constructor; auto.
Qed.

Lemma inbox_from_state_ids (decrypted : list (C * T)) (k : nat)
    (f : nat -> C * T -> MessageModel C T) :
  (forall i ct, mm_id (f i ct) = Z.of_nat (k + i)) ->
  map mm_id (imap f decrypted) = map Z.of_nat (seq k (length decrypted)).
Proof.
  revert k f. induction decrypted as [|ct l IH]; intros k f Hf; simpl; [reflexivity|].
  rewrite Hf, Nat.add_0_r. f_equal. apply IH. intros i x. simpl. rewrite Hf. f_equal. lia.
Qed.

Lemma StronglySorted_map_id (msgs : list (MessageModel C T)) :
  StronglySorted Z.lt (map mm_id msgs) ->
  StronglySorted (fun a b => mm_id a < mm_id b) msgs.
Proof.
  induction msgs as [|a l IH]; simpl; intros Hs; [constructor|].
  apply StronglySorted_inv in Hs as [Hs Hf]. constructor; [auto|].
  apply List.Forall_forall. intros x Hx. rewrite List.Forall_forall in Hf.
  apply Hf, in_map, Hx.
Qed.

Lemma StronglySorted_seq (k n : nat) : StronglySorted Z.lt (map Z.of_nat (seq k n)).
Proof.
  revert k. induction n as [|n IH]; intros k; simpl; constructor; [apply IH|].
  apply List.Forall_forall. intros x Hx. apply in_map_iff in Hx as [j [<- Hj]].
  apply in_seq in Hj. lia.
Qed.

Lemma inbox_inv_from_state (decrypted : list (C * T)) :
  Z.of_nat (length decrypted) <= u64_max -> inbox_inv (inbox_from_state decrypted).
Proof.
  intros Hl. unfold inbox_inv, inbox_from_state; simpl.
  assert (Hids : map mm_id (imap (fun i ct => {| mm_id := Z.of_nat i; mm_content := fst ct;
                                               mm_token_assignment := snd ct |}) decrypted)
                 = map Z.of_nat (seq 0 (length decrypted)))
    by (apply inbox_from_state_ids; reflexivity).
  split; [|split].
  - apply StronglySorted_map_id. rewrite Hids. apply StronglySorted_seq.
  - apply List.Forall_forall. intros x Hx.
    assert (Hin : In (mm_id x) (map Z.of_nat (seq 0 (length decrypted))))
      by (rewrite <- Hids; apply in_map, Hx).
    apply in_map_iff in Hin as [j [Hj Hjs]]. apply in_seq in Hjs. lia.
  - lia.
Qed.

Lemma inbox_inv_add (m : InboxModel C T) (content : C) (token_assignment : T) :
  inbox_inv m -> next_msg_id m + 1 <= u64_max ->
  exists m', add_received_message m content token_assignment = ROk m'
    /\ inbox_inv m'
    /\ messages m' = messages m ++ [{| mm_id := next_msg_id m; mm_content := content;
                                       mm_token_assignment := token_assignment |}]
    /\ next_msg_id m' = next_msg_id m + 1.
Proof.
  intros (Hs & Hf & Hn) Hov. unfold add_received_message.
  rewrite (proj2 (Z.leb_le _ _) Hov). eexists. split; [reflexivity|].
  split; [|split; reflexivity].
  unfold inbox_inv; simpl. split; [|split].
  - apply StronglySorted_snoc; [exact Hs|].
    apply List.Forall_forall. intros x Hx. rewrite List.Forall_forall in Hf.
    specialize (Hf x Hx). simpl. lia.
  - apply Forall_app. split.
    + eapply List.Forall_impl; [|exact Hf]. simpl. intros a Ha. lia.
    + constructor; [simpl; lia|constructor].
  - lia.
Qed.

Lemma StronglySorted_map_id_inv (msgs : list (MessageModel C T)) :
  StronglySorted (fun a b => mm_id a < mm_id b) msgs ->
  StronglySorted Z.lt (map mm_id msgs).
Proof.
  induction msgs as [|a l IH]; simpl; intros Hs; [constructor|].
  apply StronglySorted_inv in Hs as [Hs Hf]. constructor; [auto|].
  apply List.Forall_forall. intros y Hy. apply in_map_iff in Hy as [b [<- Hb]].
  rewrite List.Forall_forall in Hf. apply Hf, Hb.
Qed.

Lemma sorted_nth_lt (l : list Z) (i j : nat) :
  StronglySorted Z.lt l -> (i < j)%nat -> (j < length l)%nat -> nth i l 0 < nth j l 0.
Proof.
  revert i j. induction l as [|a l IH]; intros i j Hs Hij Hj; simpl in *; [lia|].
  apply StronglySorted_inv in Hs as [Hs Hf].
  destruct i as [|i], j as [|j]; try lia.
  - rewrite List.Forall_forall in Hf. apply Hf, nth_In. lia.
  - apply IH; auto; lia.
Qed.

Lemma sorted_nth_le (l : list Z) (i j : nat) :
  StronglySorted Z.lt l -> (i <= j)%nat -> (j < length l)%nat -> nth i l 0 <= nth j l 0.
Proof.
  intros Hs Hij Hj. destruct (Nat.eq_dec i j) as [->|Hne]; [lia|].
  apply Z.lt_le_incl, sorted_nth_lt; auto; lia.
Qed.

Lemma bs_loop_spec (fuel : nat) (keys : list Z) (x : Z) (left right : nat) :
  StronglySorted Z.lt keys ->
  (left <= right <= length keys)%nat -> (right - left < fuel)%nat ->
  (forall i, (i < left)%nat -> nth i keys 0 < x) ->
  (forall i, (right <= i < length keys)%nat -> x < nth i keys 0) ->
  match bs_loop fuel keys x left right with
  | inl p => (p < length keys)%nat /\ nth p keys 0 = x
  | inr _ => ~ In x keys
  end.
Proof.
  revert left right. induction fuel as [|f IH]; intros left right Hs Hlr Hf Hlo Hhi; [lia|].
  cbn [bs_loop]. destruct (Nat.ltb_spec left right) as [Hlt|Hge].
  - set (mid := (left + (right - left) / 2)%nat).
    assert (Hmid : (left <= mid < right)%nat).
    { subst mid. split; [lia|].
      assert ((right - left) / 2 < right - left)%nat by (apply Nat.div_lt; lia). lia. }
    destruct (Z.compare_spec (nth mid keys 0) x) as [Heq|Hl|Hg]; cbv beta iota.
    + split; [lia|exact Heq].
    + apply IH; auto; try lia.
      intros i Hi. destruct (Nat.lt_ge_cases i left) as [Hil|Hil]; [auto|].
      pose proof (sorted_nth_le keys i mid Hs ltac:(lia) ltac:(lia)). lia.
    + apply IH; auto; try lia.
      intros i Hi. pose proof (sorted_nth_le keys mid i Hs ltac:(lia) ltac:(lia)). lia.
  - intros Hin. apply (In_nth _ _ 0) in Hin as [i [Hi Hx]].
    destruct (Nat.lt_ge_cases i left) as [Hil|Hil].
    + specialize (Hlo i Hil). lia.
    + specialize (Hhi i ltac:(lia)). lia.
Qed.

Lemma binary_search_by_key_spec (msgs : list (MessageModel C T)) (x : Z) :
  StronglySorted (fun a b => mm_id a < mm_id b) msgs ->
  match binary_search_by_key msgs x with
  | inl p => (p < length msgs)%nat /\ nth p (map mm_id msgs) 0 = x
  | inr _ => ~ In x (map mm_id msgs)
  end.
Proof.
  intros Hs. unfold binary_search_by_key.
  pose proof (bs_loop_spec (S (length msgs)) (map mm_id msgs) x 0 (length msgs)
                (StronglySorted_map_id_inv msgs Hs)) as H.
  rewrite length_map in H.
  apply H; intros; lia.
Qed.

Lemma filter_keep_all (msgs : list (MessageModel C T)) (x : Z) :
  ~ In x (map mm_id msgs) ->
  List.filter (fun a => negb (mm_id a =? x)) msgs = msgs.
Proof.
  induction msgs as [|a l IH]; simpl; intros Hn; [reflexivity|].
  destruct (Z.eqb_spec (mm_id a) x) as [He|He]; [tauto|]. simpl. f_equal. auto.
Qed.

Lemma delete_found_eq_filter (msgs : list (MessageModel C T)) (p : nat) (x : Z) :
  StronglySorted Z.lt (map mm_id msgs) -> (p < length msgs)%nat ->
  nth p (map mm_id msgs) 0 = x ->
  delete p msgs = List.filter (fun a => negb (mm_id a =? x)) msgs.
Proof.
  revert p. induction msgs as [|a l IH]; intros p Hs Hp Hx; simpl in *; [lia|].
  apply StronglySorted_inv in Hs as [Hs Hf]. rewrite List.Forall_forall in Hf.
  destruct p as [|p].
  - subst x. rewrite Z.eqb_refl. simpl. symmetry. apply filter_keep_all.
    intros Hin. specialize (Hf _ Hin). lia.
  - assert (Hne : mm_id a <> x).
    { subst x. pose proof (Hf (nth p (map mm_id l) 0) ltac:(apply nth_In; rewrite length_map; lia)).
      lia. }
    apply Z.eqb_neq in Hne. rewrite Hne. simpl. f_equal. apply IH; auto; lia.
Qed.

Lemma remove_single_path (m : InboxModel C T) (ids : list Z) :
  inbox_inv m -> (length ids <= 1)%nat ->
  messages (remove_received_message m ids)
  = List.filter (fun a => negb (existsb (Z.eqb (mm_id a)) ids)) (messages m).
Proof.
  intros (Hs & _ & _) Hl. unfold remove_received_message.
  destruct ids as [|x [|y ids]]; simpl in *; try lia.
  - clear Hs. symmetry. induction (messages m) as [|a l IH]; simpl; [reflexivity|]. now f_equal.
  - pose proof (binary_search_by_key_spec (messages m) x Hs) as H.
    rewrite (List.filter_ext _ (fun a => negb (mm_id a =? x)))
      by (intros a; now rewrite orb_false_r).
    destruct (binary_search_by_key (messages m) x) as [p|e].
    + destruct H as [Hp Hx]. apply delete_found_eq_filter; auto.
      apply StronglySorted_map_id_inv, Hs.
    + symmetry. apply filter_keep_all, H.
Qed.

End InboxProofs.

(** An inbox whose ids are out of order: [[5; 1; 2]]. *)
Definition unsorted_inbox {C T} (c : C) (t : T) : InboxModel C T :=
  {| messages := map (fun i => {| mm_id := i; mm_content := c; mm_token_assignment := t |})
                   [5; 1; 2];
     next_msg_id := 6 |}.

(** C9: the inbox keeps its ids strictly increasing (and below
    [next_msg_id], a [u64]).  [from_state] establishes the invariant;
    [add_received_message] appends a message with id [next_msg_id], above
    every stored id, increments [next_msg_id] and keeps the invariant (the
    increment panics only on [u64] overflow); [remove_received_message]
    keeps it on both paths.  On the single-id path (binary search then
    [remove]) the invariant makes removal exact: the result is the list
    without the messages with that id.  Without it the binary search can
    miss: on ids [[5; 1; 2]], removing id 5 leaves the message in place. *)
Theorem inbox_ids_sorted {C T : Type} :
  (forall decrypted : list (C * T),
      Z.of_nat (length decrypted) <= u64_max -> inbox_inv (inbox_from_state decrypted))
  /\ (forall (m : InboxModel C T) (content : C) (token_assignment : T),
        inbox_inv m -> next_msg_id m + 1 <= u64_max ->
        Forall (fun a => mm_id a < next_msg_id m) (messages m)
        /\ exists m', add_received_message m content token_assignment = ROk m'
             /\ inbox_inv m'
             /\ messages m' = messages m ++ [{| mm_id := next_msg_id m; mm_content := content;
                                                mm_token_assignment := token_assignment |}]
             /\ next_msg_id m' = next_msg_id m + 1)
  /\ (forall (m : InboxModel C T) (ids : list Z),
        inbox_inv m -> inbox_inv (remove_received_message m ids))
  /\ (forall (m : InboxModel C T) (ids : list Z),
        inbox_inv m -> (length ids <= 1)%nat ->
        messages (remove_received_message m ids)
        = List.filter (fun a => negb (existsb (Z.eqb (mm_id a)) ids)) (messages m))
  /\ (forall (c : C) (t : T),
        ~ inbox_inv (unsorted_inbox c t)
        /\ messages (remove_received_message (unsorted_inbox c t) [5]) = messages (unsorted_inbox c t)).
Proof.
  split; [exact inbox_inv_from_state|].
  split.
  { intros m content token_assignment Hinv Hov. split.
    - destruct Hinv as (_ & Hf & _). eapply List.Forall_impl; [|exact Hf]. simpl. lia.
    - exact (inbox_inv_add m content token_assignment Hinv Hov). }
  split; [exact inbox_inv_remove|].
  split; [exact remove_single_path|].
  intros c t. split.
  - intros (Hs & _ & _). simpl in Hs.
    apply StronglySorted_inv in Hs as [_ Hf]. inversion Hf; subst. simpl in *. lia.
  - reflexivity.
Qed.

(** Three stored messages, ids 0, 1, 2. *)
Definition three_msg_inbox : InboxModel nat nat :=
  inbox_from_state [(10, 20); (11, 21); (12, 22)]%nat.

Lemma inbox_ids_sorted_witness :
  inbox_inv three_msg_inbox
  /\ messages (remove_received_message three_msg_inbox [1])
     = [{| mm_id := 0; mm_content := 10%nat; mm_token_assignment := 20%nat |};
        {| mm_id := 2; mm_content := 12%nat; mm_token_assignment := 22%nat |}]
  /\ (exists m', add_received_message three_msg_inbox 13%nat 23%nat = ROk m' /\ inbox_inv m').
Proof.
  destruct (@inbox_ids_sorted nat nat) as (Hfrom & Hadd & _ & Hrem & _).
  assert (Hinv : inbox_inv three_msg_inbox)
    by (apply Hfrom; unfold u64_max; simpl; lia).
  split; [exact Hinv|]. split.
  - rewrite (Hrem three_msg_inbox [1] Hinv ltac:(simpl; lia)). reflexivity.
  - destruct (Hadd three_msg_inbox 13%nat 23%nat Hinv ltac:(unfold u64_max; simpl; lia))
      as [_ (m' & Heq & Hinv' & _)].
    exists m'. split; [exact Heq|exact Hinv'].
Defined.

(** ** Contract keys, hex and spec envelopes, continued *)

Local Open Scope Z_scope.

(** X1: [ContractKey::from] never panics (its digest is the 64 bytes it is
    copied into), and neither does [ContractSpecification::new]: the spec
    part is [Blake2b512(contract hash || parameters)], the contract part the
    contract hash. *)
Theorem contract_key_from_never_panics {E} (parameters : list Z) (contract : ContractData) :
  @contract_key_from E parameters contract
    = ROk {| ck_spec := blake2b512 (cd_key contract ++ parameters);
             ck_contract := cd_key contract |}
  /\ length (blake2b512 (cd_key contract ++ parameters)) = CONTRACT_KEY_SIZE
  /\ @contract_specification_new E contract parameters
     = ROk {| cs_parameters := parameters; cs_contract := contract;
              cs_key := {| ck_spec := blake2b512 (cd_key contract ++ parameters);
                           ck_contract := cd_key contract |} |}.
Proof.
  assert (Hl : length (blake2b512 (cd_key contract ++ parameters)) = CONTRACT_KEY_SIZE)
    by apply blake2_length.
  assert (Hk : @contract_key_from E parameters contract
                 = ROk {| ck_spec := blake2b512 (cd_key contract ++ parameters);
                          ck_contract := cd_key contract |}).
  { unfold contract_key_from, copy_from_slice. now rewrite Hl. }
  split; [exact Hk|]. split; [exact Hl|].
  unfold contract_specification_new. now rewrite Hk.
Qed.

Lemma hex_val_indep (c : Z) (i j : nat) (v : Z) :
  hex_val c i = ROk v -> hex_val c j = ROk v.
Proof.
  unfold hex_val.
  destruct ((65 <=? c) && (c <=? 70)); [auto|].
  destruct ((97 <=? c) && (c <=? 102)); [auto|].
  destruct ((48 <=? c) && (c <=? 57)); [auto|discriminate].
Qed.

Lemma hex_byte_roundtrip (b : Z) (i j : nat) :
  0 <= b < 256 ->
  exists hi lo,
    hex_val (nth (Z.to_nat (Z.shiftr (Z.land b 0xf0) 4)) HEX_CHARS_LOWER 0) i = ROk hi
    /\ hex_val (nth (Z.to_nat (Z.land b 0x0f)) HEX_CHARS_LOWER 0) j = ROk lo
    /\ Z.lor (Z.land (Z.shiftl hi 4) 255) lo = b.
Proof.
  intros Hb.
  assert (Hall : forallb (fun b =>
            match hex_val (nth (Z.to_nat (Z.shiftr (Z.land b 0xf0) 4)) HEX_CHARS_LOWER 0) 0,
                  hex_val (nth (Z.to_nat (Z.land b 0x0f)) HEX_CHARS_LOWER 0) 0 with
            | ROk hi, ROk lo => Z.eqb (Z.lor (Z.land (Z.shiftl hi 4) 255) lo) b
            | _, _ => false
            end) (map Z.of_nat (seq 0 256)) = true) by (vm_compute; reflexivity).
  rewrite forallb_forall in Hall.
  specialize (Hall b ltac:(apply in_map_iff; exists (Z.to_nat b);
                          split; [lia|apply in_seq; lia])).
  destruct (hex_val _ 0) as [hi| |] eqn:Eh; try discriminate.
  destruct (hex_val (nth (Z.to_nat (Z.land b 0x0f)) HEX_CHARS_LOWER 0) 0) as [lo| |] eqn:El;
    try discriminate.
  exists hi, lo. split; [exact (hex_val_indep _ _ _ _ Eh)|].
  split; [exact (hex_val_indep _ _ _ _ El)|]. now apply Z.eqb_eq.
Qed.

Lemma length_hex_encode_bytes (l : list Z) : length (hex_encode_bytes l) = (2 * length l)%nat.
Proof. induction l as [|b l IH]; simpl; [reflexivity|]. rewrite IH. lia. Qed.

Lemma hex_decode_pairs_encode (l P : list Z) (i : nat) :
  length P = (2 * i)%nat -> Forall (fun b => 0 <= b < 256) l ->
  hex_decode_pairs (P ++ hex_encode_bytes l) i (length l) = ROk l.
Proof.
  revert P i. induction l as [|b l IH]; intros P i HP Hf; [reflexivity|].
  inversion Hf as [|? ? Hb Hf']; subst.
  destruct (hex_byte_roundtrip b (2 * i) (2 * i + 1) Hb) as (hi & lo & Hhi & Hlo & Hbyte).
  cbn [length hex_decode_pairs hex_encode_bytes flat_map].
  set (dh := nth (Z.to_nat (Z.shiftr (Z.land b 0xf0) 4)) HEX_CHARS_LOWER 0) in *.
  set (dl := nth (Z.to_nat (Z.land b 0x0f)) HEX_CHARS_LOWER 0) in *.
  change (hex_encode_bytes l) with (flat_map (fun byte =>
              [nth (Z.to_nat (Z.shiftr (Z.land byte 0xf0) 4)) HEX_CHARS_LOWER 0;
               nth (Z.to_nat (Z.land byte 0x0f)) HEX_CHARS_LOWER 0]) l) in IH.
  fold (hex_encode_bytes l).
  assert (E1 : nth (2 * i) (P ++ [dh; dl] ++ hex_encode_bytes l) 0 = dh)
    by (rewrite app_nth2 by lia; rewrite HP, Nat.sub_diag; reflexivity).
  assert (E2 : nth (2 * i + 1) (P ++ [dh; dl] ++ hex_encode_bytes l) 0 = dl)
    by (rewrite app_nth2 by lia; rewrite HP; replace (2 * i + 1 - 2 * i)%nat with 1%nat by lia;
        reflexivity).
  rewrite E1, Hhi. cbn [res_bind]. rewrite E2, Hlo. cbn [res_bind].
  rewrite app_assoc, IH; [|rewrite length_app, HP; simpl; lia|exact Hf'].
  cbn [res_bind]. now rewrite Hbyte.
Qed.

(** X2: [ContractKey::hex_decode] inverts [hex::encode] on the contract part:
    decoding the hex text of a 64-byte contract hash with some parameters
    gives the key [ContractKey::from] builds from that contract hash and
    those parameters. *)
Theorem hex_decode_of_hex_encode (contract parameters : list Z) :
  length contract = CONTRACT_KEY_SIZE ->
  Forall (fun b => 0 <= b < 256) contract ->
  hex_decode (hex_encode_bytes contract) parameters
    = ROk {| ck_spec := blake2b512 (contract ++ parameters); ck_contract := contract |}
  /\ forall data : list Z,
       hex_decode (hex_encode_bytes contract) parameters
       = contract_key_from parameters {| cd_data := data; cd_key := contract |}.
Proof.
  intros Hl Hf.
  assert (Hd : hex_decode (hex_encode_bytes contract) parameters
                 = ROk {| ck_spec := blake2b512 (contract ++ parameters);
                          ck_contract := contract |}).
  { unfold hex_decode, decode_to_slice. rewrite length_hex_encode_bytes, Hl.
    cbn [CONTRACT_KEY_SIZE]. simpl Nat.eqb. cbn [negb].
    replace 64%nat with (length contract) by exact Hl.
    rewrite <- (app_nil_l (hex_encode_bytes contract)).
    rewrite (hex_decode_pairs_encode contract [] 0) by (reflexivity || exact Hf).
    cbn [res_bind]. unfold copy_from_slice, blake2b512. rewrite blake2_length.
    reflexivity. }
  split; [exact Hd|]. intros data. rewrite Hd.
  unfold contract_key_from, copy_from_slice, blake2b512. simpl cd_key.
  now rewrite blake2_length.
Qed.

Lemma hex_val_err (c : Z) (i : nat) (e : FromHexError) :
  hex_val c i = RErr e -> e = InvalidHexCharacter c i.
Proof.
  unfold hex_val.
  destruct ((65 <=? c) && (c <=? 70)); [discriminate|].
  destruct ((97 <=? c) && (c <=? 102)); [discriminate|].
  destruct ((48 <=? c) && (c <=? 57)); [discriminate|]. congruence.
Qed.

Lemma hex_decode_pairs_err (d : list Z) (i n : nat) (e : FromHexError) :
  hex_decode_pairs d i n = RErr e -> exists c k, e = InvalidHexCharacter c k.
Proof.
  revert i. induction n as [|n IH]; intros i H; cbn [hex_decode_pairs] in H; [discriminate|].
  destruct (hex_val (nth (2 * i) d 0) (2 * i)) as [hi|e1|] eqn:E1; cbn [res_bind] in H;
    [|injection H as <-; apply hex_val_err in E1; eauto|discriminate].
  destruct (hex_val (nth (2 * i + 1) d 0) (2 * i + 1)) as [lo|e2|] eqn:E2; cbn [res_bind] in H;
    [|injection H as <-; apply hex_val_err in E2; eauto|discriminate].
  destruct (hex_decode_pairs d (S i) n) eqn:E3; cbn [res_bind] in H; try discriminate.
  injection H as <-. eauto.
Qed.

Lemma hex_decode_length_errors (s parameters : list Z) :
  (hex_decode s parameters = RErr OddLength <-> (length s mod 2 = 1)%nat)
  /\ (hex_decode s parameters = RErr InvalidStringLength
      <-> (length s mod 2 = 0)%nat /\ length s <> 128%nat).
Proof.
  pose proof (Nat.mod_upper_bound (length s) 2 ltac:(lia)) as Hm.
  pose proof (Nat.div_mod_eq (length s) 2) as Hd.
  unfold hex_decode, decode_to_slice.
  destruct (Nat.eqb_spec (length s mod 2) 0) as [H0|H0]; cbn [negb].
  - destruct (Nat.eqb_spec (length s / 2) 64) as [H1|H1]; cbn [negb].
    + destruct (hex_decode_pairs s 0 64) as [c|e|] eqn:E; cbn [res_bind].
      * unfold copy_from_slice, blake2b512. rewrite blake2_length. cbn [Nat.eqb res_bind].
        split; split; intros; try discriminate; lia.
      * destruct (hex_decode_pairs_err _ _ _ _ E) as (c & k & ->).
        split; split; intros; try discriminate; lia.
      * split; split; intros; try discriminate; lia.
    + split; split; intros; try discriminate; try lia; auto.
  - split; split; intros; try discriminate; try lia; auto.
Qed.


Lemma hex_val_upper (c : Z) (i : nat) : hex_val (hex_upper c) i = hex_val c i.
Proof.
  unfold hex_upper. destruct ((97 <=? c) && (c <=? 102)) eqn:E; [|reflexivity].
  apply andb_true_iff in E as [E1 E2]. apply Z.leb_le in E1, E2. unfold hex_val.
  replace ((65 <=? c - 32) && (c - 32 <=? 70)) with true
    by (symmetry; apply andb_true_iff; split; apply Z.leb_le; lia).
  replace ((65 <=? c) && (c <=? 70)) with false
    by (symmetry; apply andb_false_iff; right; apply Z.leb_gt; lia).
  replace ((97 <=? c) && (c <=? 102)) with true
    by (symmetry; apply andb_true_iff; split; apply Z.leb_le; lia).
  f_equal. lia.
Qed.

Lemma nth_map_hex_upper (d : list Z) (k : nat) :
  nth k (map hex_upper d) 0 = hex_upper (nth k d 0).
Proof. rewrite <- (map_nth hex_upper d 0 k). reflexivity. Qed.

Lemma hex_decode_pairs_upper (d : list Z) (i n : nat) :
  hex_decode_pairs (map hex_upper d) i n = hex_decode_pairs d i n.
Proof.
  revert i. induction n as [|n IH]; intros i; cbn [hex_decode_pairs]; [reflexivity|].
  rewrite !nth_map_hex_upper, !hex_val_upper, IH. reflexivity.
Qed.

(** X3: [ContractKey::hex_decode]'s errors: [OddLength] exactly for an odd
    number of characters, [InvalidStringLength] exactly for an even number
    other than 128 (the hex text of 64 bytes); and it reads the letters
    [A]..[F] as [a]..[f], so upper-casing them never changes the result. *)
Theorem hex_decode_errors_and_case (s parameters : list Z) :
  (hex_decode s parameters = RErr OddLength <-> (length s mod 2 = 1)%nat)
  /\ (hex_decode s parameters = RErr InvalidStringLength
      <-> (length s mod 2 = 0)%nat /\ length s <> 128%nat)
  /\ hex_decode (map hex_upper s) parameters = hex_decode s parameters.
Proof.
  destruct (hex_decode_length_errors s parameters) as [H1 H2].
  split; [exact H1|]. split; [exact H2|].
  unfold hex_decode, decode_to_slice. rewrite length_map, hex_decode_pairs_upper.
  reflexivity.
Qed.

(** X4: [UpdateResult] survives its [i32] encoding: [try_from] of the
    discriminant gives the variant back, the codes accepted are exactly 0,
    1 and 2, and a [ContractError] converts to [Invalid], code 2. *)
Theorem update_result_i32_roundtrip :
  (forall r, update_result_try_from (update_result_as_i32 r) = ROk r)
  /\ (forall value, update_result_try_from value = RErr tt <-> ~ (0 <= value <= 2))
  /\ update_result_from_error InvalidUpdate = Invalid
  /\ update_result_as_i32 (update_result_from_error InvalidUpdate) = 2.
Proof.
  split; [intros []; reflexivity|]. split; [|split; reflexivity].
  intros value. split.
  - intros H Hr. assert (Hv : value = 0 \/ value = 1 \/ value = 2) by lia.
    destruct Hv as [ -> | [ -> | -> ]]; discriminate.
  - intros Hn. destruct value as [|[p|[p|p|]|]|p]; try reflexivity; lia.
Qed.

Lemma read_u64_le_short (l : list Z) : (length l < 8)%nat -> read_u64_le l = RErr UnexpectedEof.
Proof. intros H. unfold read_u64_le. now rewrite (proj2 (Nat.ltb_lt _ _) H). Qed.

Lemma read_exact_short (n : nat) (l : list Z) :
  (length l < n)%nat -> read_exact (repeat 0 n) l = RErr UnexpectedEof.
Proof.
  intros H. unfold read_exact. rewrite repeat_length.
  now rewrite (proj2 (Nat.leb_gt _ _) H).
Qed.

Lemma firstn_app_ge {A} (n : nat) (l1 l2 : list A) :
  (length l1 <= n)%nat -> firstn n (l1 ++ l2) = l1 ++ firstn (n - length l1) l2.
Proof. intros H. rewrite firstn_app, firstn_all2 by exact H. reflexivity. Qed.

Lemma read_spec_parts_prefix (params code : list Z) (k : nat) :
  Z.of_nat (length params) <= isize_max ->
  Z.of_nat (length code) <= isize_max ->
  (k < length (encode_spec params code))%nat ->
  read_spec_parts (firstn k (encode_spec params code)) = RErr UnexpectedEof.
Proof.
  intros Hp Hc Hk. unfold encode_spec in *.
  rewrite !length_app, !length_bytes_le in Hk.
  unfold read_spec_parts.
  destruct (Nat.lt_ge_cases k 8) as [H8|H8].
  { rewrite read_u64_le_short; [reflexivity|]. rewrite length_firstn. lia. }
  rewrite firstn_app_ge by (rewrite length_bytes_le; lia). rewrite length_bytes_le.
  rewrite read_u64_le_bytes by (unfold isize_max in *; lia). cbn [fst snd res_bind].
  rewrite vec_zeroed_small by exact Hp. cbn [res_bind]. rewrite Nat2Z.id.
  destruct (Nat.lt_ge_cases (k - 8) (length params)) as [Hq|Hq].
  { rewrite read_exact_short; [reflexivity|]. rewrite length_firstn. lia. }
  rewrite firstn_app_ge by lia. rewrite read_exact_repeat by reflexivity.
  cbn [fst snd res_bind].
  destruct (Nat.lt_ge_cases (k - 8 - length params) 8) as [H8'|H8'].
  { rewrite read_u64_le_short; [reflexivity|]. rewrite length_firstn. lia. }
  rewrite firstn_app_ge by (rewrite length_bytes_le; lia). rewrite length_bytes_le.
  rewrite read_u64_le_bytes by (unfold isize_max in *; lia). cbn [fst snd res_bind].
  rewrite vec_zeroed_small by exact Hc. cbn [res_bind]. rewrite Nat2Z.id.
  rewrite read_exact_short; [reflexivity|]. rewrite length_firstn. lia.
Qed.

(** X5: Decoding a specification blob rejects every strict prefix of a
    well-formed blob [u64 params_len || params || u64 code_len || code]
    with [UnexpectedEof]: a truncated blob is an error, never a shorter
    specification. *)
Theorem spec_try_from_truncated (params code : list Z) (k : nat) :
  Z.of_nat (length params) <= isize_max ->
  Z.of_nat (length code) <= isize_max ->
  (k < length (encode_spec params code))%nat ->
  read_spec_parts (firstn k (encode_spec params code)) = RErr UnexpectedEof
  /\ spec_try_from (firstn k (encode_spec params code)) = RErr UnexpectedEof.
Proof.
  intros Hp Hc Hk. pose proof (read_spec_parts_prefix params code k Hp Hc Hk) as H.
  split; [exact H|]. unfold spec_try_from. now rewrite H.
Qed.

(** X6: A blob whose parameters length, or whose code length, is above
    [isize::MAX] makes decoding panic ([vec![0; len]] overflows its
    capacity) rather than return an error. *)
Theorem spec_try_from_oversized_length_panics :
  (forall (n : Z) (rest : list Z),
     isize_max < n < 2 ^ 64 ->
     read_spec_parts (bytes_le 8 n ++ rest) = RPanic
     /\ spec_try_from (bytes_le 8 n ++ rest) = RPanic)
  /\ (forall (params : list Z) (n : Z) (rest : list Z),
        Z.of_nat (length params) <= isize_max -> isize_max < n < 2 ^ 64 ->
        read_spec_parts (bytes_le 8 (Z.of_nat (length params)) ++ params ++ bytes_le 8 n ++ rest)
          = RPanic
        /\ spec_try_from (bytes_le 8 (Z.of_nat (length params)) ++ params ++ bytes_le 8 n ++ rest)
          = RPanic).
Proof.
  assert (Hv : forall E n, isize_max < n -> @vec_zeroed E n = RPanic).
  { intros E n Hn. unfold vec_zeroed. now rewrite (proj2 (Z.leb_gt _ _) Hn). }
  split.
  - intros n rest Hn.
    assert (H : read_spec_parts (bytes_le 8 n ++ rest) = RPanic).
    { unfold read_spec_parts. rewrite read_u64_le_bytes by (unfold isize_max in *; lia). cbn [fst snd res_bind].
      rewrite Hv by lia. reflexivity. }
    split; [exact H|]. unfold spec_try_from. now rewrite H.
  - intros params n rest Hp Hn.
    assert (H : read_spec_parts (bytes_le 8 (Z.of_nat (length params)) ++ params
                                 ++ bytes_le 8 n ++ rest) = RPanic).
    { unfold read_spec_parts.
      rewrite read_u64_le_bytes by (unfold isize_max in *; lia). cbn [fst snd res_bind].
      rewrite vec_zeroed_small by exact Hp. cbn [res_bind]. rewrite Nat2Z.id.
      rewrite read_exact_repeat by reflexivity. cbn [fst snd res_bind].
      rewrite read_u64_le_bytes by (unfold isize_max in *; lia). cbn [fst snd res_bind].
      rewrite Hv by lia. reflexivity. }
    split; [exact H|]. unfold spec_try_from. now rewrite H.
Qed.

Lemma firstn_hex_encode_bytes (n : nat) (l : list Z) :
  firstn (2 * n) (hex_encode_bytes l) = hex_encode_bytes (firstn n l).
Proof.
  revert n. induction l as [|b l IH]; intros n.
  - rewrite !firstn_nil. reflexivity.
  - destruct n as [|n]; [reflexivity|].
    replace (2 * S n)%nat with (S (S (2 * n))) by lia.
    cbn [hex_encode_bytes flat_map app firstn]. rewrite <- IH. reflexivity.
Qed.

Lemma internal_fmt_key_prefix {E} (key : list Z) :
  (4 <= length key)%nat -> @internal_fmt_key E key = ROk (hex_encode_bytes (firstn 4 key)).
Proof.
  intros H. unfold internal_fmt_key. rewrite length_hex_encode_bytes.
  rewrite (proj2 (Nat.leb_le 8 (2 * length key))) by lia.
  rewrite <- firstn_hex_encode_bytes. reflexivity.
Qed.

(** X7: The [Display] of a [ContractKey] is ["ContractKey("], the hex text of
    the first 4 bytes of its spec, [")"]; that of a [ContractData] shows the
    same 4-byte key prefix and then all of the data: above 8 bytes the
    data is split after 4 bytes by ["..."], and no byte is dropped. *)
Theorem display_key_prefix_and_full_data {E} (k : ContractKey) (cd : ContractData) :
  (4 <= length (ck_spec k))%nat -> (4 <= length (cd_key cd))%nat ->
  @contract_key_fmt E k
    = ROk (ascii_bytes "ContractKey(" ++ hex_encode_bytes (firstn 4 (ck_spec k))
           ++ ascii_bytes ")")
  /\ exists s,
       @contract_data_fmt E cd
         = ROk (ascii_bytes "Contract( key: " ++ hex_encode_bytes (firstn 4 (cd_key cd))
                ++ ascii_bytes ", data: [" ++ s ++ ascii_bytes "])")
       /\ ((length (cd_data cd) <= 8)%nat /\ s = cd_data cd
           \/ (8 < length (cd_data cd))%nat
              /\ exists pre suf, s = pre ++ ascii_bytes "..." ++ suf
                                 /\ pre ++ suf = cd_data cd /\ length pre = 4%nat).
Proof.
  intros Hk Hc. split.
  - unfold contract_key_fmt. rewrite internal_fmt_key_prefix by exact Hk. reflexivity.
  - exists (contract_data_str (cd_data cd)). split.
    + unfold contract_data_fmt. rewrite internal_fmt_key_prefix by exact Hc. reflexivity.
    + unfold contract_data_str. destruct (Nat.ltb_spec 8 (length (cd_data cd))) as [H|H].
      * right. split; [exact H|]. exists (firstn 4 (cd_data cd)), (skipn 4 (cd_data cd)).
        split; [reflexivity|]. split; [apply firstn_skipn|]. rewrite length_firstn. lia.
      * left. split; [exact H|reflexivity].
Qed.

(** ** Join-ring operation, continued *)

(** X8: [JoinRingOp::initial_request] never panics: the fresh machine accepts
    the initial request and ends in [Connecting] with the gateway, the
    joiner and the maximum hops.  From [Initializing], the exchange of the
    [join_ring_transitions] test goes through for every transaction, peer
    and hop count: the request yields [Resp::ReceivedOC] addressed to the
    joiner, which moves a fresh machine to [OCReceived] with output
    [Connected]; [Connected] then moves [Connecting] and [OCReceived] to
    [Connected], each answering [Connected]. *)
Theorem initial_request_and_handshake {E} (id : Transaction) (target_loc : PeerKeyLocation)
    (req_peer : PeerKey) (hops_to_live max_hops_to_live : nat) :
  let info := {| gateway := target_loc; this_peer := req_peer;
                 ci_max_hops_to_live := max_hops_to_live |} in
  let oc := JoinRingMsg.Resp id {| pkl_peer := req_peer; pkl_location := None |}
              (JoinResponse.ReceivedOC target_loc) in
  @initial_request E id req_peer target_loc max_hops_to_live = ROk (JRState.Connecting info)
  /\ consume JRState.Initializing
       (JoinRingMsg.Req id (JoinRequest.Initial target_loc req_peer hops_to_live max_hops_to_live))
     = (JRState.Connecting info, ROk (Some oc))
  /\ consume JRState.Initializing oc = (JRState.OCReceived, ROk (Some JoinRingMsg.Connected))
  /\ consume (JRState.Connecting info) JoinRingMsg.Connected
     = (JRState.Connected, ROk (Some JoinRingMsg.Connected))
  /\ consume JRState.OCReceived JoinRingMsg.Connected
     = (JRState.Connected, ROk (Some JoinRingMsg.Connected)).
Proof. repeat split. Qed.




Lemma transition_rank (s s' : JRState.t) (i : JoinRingMsg.t) :
  transition s i = Some s' -> (jr_rank s' < jr_rank s)%nat.
Proof.
  destruct s; destruct i as [? []|? ? []|]; cbn; intros H; try discriminate;
    injection H as <-; cbn; lia.
Qed.

(** X9: The join-ring machine never goes back: over any sequence of inputs,
    the number of inputs it accepts plus the rank of the state it ends in
    is at most the rank it started from.  From [Initializing] at most
    three inputs are ever accepted, and any run that accepts three ends
    in [Connected]. *)
Theorem consume_all_accepts_at_most_rank (s : JRState.t) (inputs : list JoinRingMsg.t) :
  (length (List.filter is_accepted (snd (consume_all s inputs)))
   + jr_rank (fst (consume_all s inputs)) <= jr_rank s)%nat
  /\ (length (List.filter is_accepted (snd (consume_all JRState.Initializing inputs))) <= 3)%nat
  /\ (length (List.filter is_accepted (snd (consume_all JRState.Initializing inputs))) = 3%nat
      -> fst (consume_all JRState.Initializing inputs) = JRState.Connected).
Proof.
  assert (Hg : forall s, (length (List.filter is_accepted (snd (consume_all s inputs)))
                          + jr_rank (fst (consume_all s inputs)) <= jr_rank s)%nat).
  { induction inputs as [|i rest IH]; intros s0; cbn [consume_all]; [cbn; lia|].
    unfold consume. destruct (transition s0 i) as [s'|] eqn:E.
    - pose proof (transition_rank _ _ _ E). specialize (IH s').
      destruct (consume_all s' rest) as [sf rs]. cbn [fst snd List.filter is_accepted length] in *.
      lia.
    - specialize (IH s0). destruct (consume_all s0 rest) as [sf rs].
      cbn [fst snd List.filter is_accepted length] in *. lia. }
  split; [apply Hg|]. pose proof (Hg JRState.Initializing) as H. cbn [jr_rank] in H.
  split; [lia|]. intros H3.
  destruct (fst (consume_all JRState.Initializing inputs)); cbn [jr_rank] in H;
    solve [reflexivity | lia].
Qed.

(** X10: [initial_join_request] started on the machine [initial_request]
    built, with a gateway that has a location, whether or not [Info]
    logging is enabled: it registers the gateway as a connection, sends it
    exactly one message, [Req::Initial] with [hops_to_live =
    max_hops_to_live], and stores the operation under the new transaction
    once the send succeeds (a failed send is returned as the error and
    nothing is stored). *)
Theorem join_start_sends_initial_to_gateway (info_enabled : bool) send_ok
    (op_storage : OpStateStorage)
    (id tx : Transaction) (req_peer : PeerKey) (target_loc : PeerKeyLocation) (loc : Q)
    (max_hops_to_live : nat) (added : list (PeerKeyLocation * bool)) (sent : Sends) :
  pkl_location target_loc = Some loc ->
  let join_op := JRState.Connecting {| gateway := target_loc; this_peer := req_peer;
                                       ci_max_hops_to_live := max_hops_to_live |} in
  let join_req := Message.JoinRing (JoinRingMsg.Req tx
                    (JoinRequest.Initial target_loc req_peer max_hops_to_live max_hops_to_live)) in
  @initial_request JoinError id req_peer target_loc max_hops_to_live = ROk join_op
  /\ initial_join_request info_enabled send_ok op_storage join_op tx added sent
     = (added ++ [(target_loc, true)], sent ++ [(target_loc, join_req)],
        if send_ok target_loc join_req
        then ROk (<[tx := Operation.JoinRing join_op]> op_storage)
        else RErr (JoinOpError TransportError)).
Proof.
  intros Hloc join_op join_req. split; [reflexivity|].
  unfold initial_join_request. cbn [try_unwrap_connecting join_op gateway this_peer ci_max_hops_to_live].
  destruct info_enabled; [rewrite Hloc|]; unfold send; fold join_req;
    destruct (send_ok target_loc join_req); reflexivity.
Qed.

(** X11: [initial_join_request] refuses a machine that is not [Connecting]
    with [IllegalStateTransition], before registering a connection or
    sending anything.  A gateway without a location is refused with
    [LocationUnknown], again before any effect, only when [Info] logging is
    enabled (the check sits inside [log::info!]'s arguments); with it
    disabled the gateway is registered, sent the [Req::Initial] and the
    operation stored exactly as for a located gateway. *)
Theorem initial_join_request_refusals send_ok (op_storage : OpStateStorage) (tx : Transaction)
    (added : list (PeerKeyLocation * bool)) (sent : Sends) :
  (forall info_enabled join_op, (forall info, join_op <> JRState.Connecting info) ->
     initial_join_request info_enabled send_ok op_storage join_op tx added sent
     = (added, sent, RErr (JoinOpError IllegalStateTransition)))
  /\ (forall info, pkl_location (gateway info) = None ->
        let join_req := Message.JoinRing (JoinRingMsg.Req tx
                          (JoinRequest.Initial (gateway info) (this_peer info)
                             (ci_max_hops_to_live info) (ci_max_hops_to_live info))) in
        initial_join_request true send_ok op_storage (JRState.Connecting info) tx added sent
        = (added, sent, RErr (JoinConnError LocationUnknown))
        /\ initial_join_request false send_ok op_storage (JRState.Connecting info) tx added sent
           = (added ++ [(gateway info, true)], sent ++ [(gateway info, join_req)],
              if send_ok (gateway info) join_req
              then ROk (<[tx := Operation.JoinRing (JRState.Connecting info)]> op_storage)
              else RErr (JoinOpError TransportError))).
Proof.
  split.
  - intros info_enabled join_op Hn. destruct join_op as [|info| |]; try reflexivity.
    exfalso. exact (Hn info eq_refl).
  - intros [g p m] Hg join_req. cbn [gateway this_peer ci_max_hops_to_live] in Hg, join_req |- *.
    unfold initial_join_request. cbn [try_unwrap_connecting]. rewrite Hg. split; [reflexivity|].
    unfold send. fold join_req. destruct (send_ok g join_req); reflexivity.
Qed.

(** X12: [join_ring_op] on a [Req::Initial] that is not forwarded (the target
    has a location, and [hops_to_live = 0], no neighbors or no forward
    target): it sends the [Resp::Initial] reply, once, to [target_loc],
    the [sender] the reply carries, and stores the operation back under
    the transaction id, unchanged ([Initializing] for an id not stored
    before).  A failed send is returned as [TransportError]. *)
Theorem join_ring_op_initial_not_forwarded send_ok (op_storage : OpStateStorage) (ring : Ring)
    (id : Transaction) (target_loc : PeerKeyLocation) (my_loc : Q) (req_peer : PeerKey)
    (hops_to_live max_hops_to_live : nat) (new_location : Q) (rnd : nat) (sent : Sends)
    (st : JRState.t) :
  pkl_location target_loc = Some my_loc ->
  (hops_to_live = 0%nat \/ connections_by_location ring = []
   \/ forward_target ring req_peer hops_to_live new_location rnd = None) ->
  (op_storage !! id = None /\ st = JRState.Initializing
   \/ op_storage !! id = Some (Operation.JoinRing st)) ->
  let reply := initial_reply ring id target_loc my_loc req_peer new_location in
  join_ring_op send_ok op_storage ring
    (JoinRingMsg.Req id (JoinRequest.Initial target_loc req_peer hops_to_live max_hops_to_live))
    new_location rnd sent
  = (sent ++ [(target_loc, reply)],
     if send_ok target_loc reply
     then ROk (<[id := Operation.JoinRing st]> op_storage)
     else RErr TransportError).
Proof.
  intros Hloc Hcase Hst reply. unfold join_ring_op. cbn [mbind mlift JoinRingMsg.id].
  destruct Hst as [[Hn ->]|Hs]; [rewrite Hn|rewrite Hs];
    cbn [mbind mlift JoinRingMsg.sender];
    rewrite (update_state_initial_no_forward send_ok _ id target_loc my_loc req_peer
               hops_to_live max_hops_to_live ring new_location rnd sent Hloc Hcase);
    fold reply; unfold reply, initial_reply;
    cbn [mbind mlift Message.id Message.sender JoinRingMsg.id JoinRingMsg.sender send];
    (destruct (send_ok target_loc _); [|reflexivity]);
    unfold mret; do 2 f_equal; apply insert_delete_eq.
Qed.

(** X13: [join_ring_op]'s error paths: a transaction id stored for another
    kind of operation fails with [TxUpdateFailure]; so does a
    [Req::Initial] whose [target_loc] has no location.  Neither sends
    anything: in the second case the [Canceled] notice is skipped, since a
    request's [sender()] is [None]. *)
Theorem join_ring_op_errors send_ok (op_storage : OpStateStorage) (ring : Ring)
    (new_location : Q) (rnd : nat) (sent : Sends) :
  (forall (msg : JoinRingMsg.t) (tx : Transaction),
     @JoinRingMsg.id OpError msg = ROk tx -> op_storage !! tx = Some Operation.Other ->
     join_ring_op send_ok op_storage ring msg new_location rnd sent
     = (sent, RErr (TxUpdateFailure tx)))
  /\ (forall id target_loc req_peer hops_to_live max_hops_to_live,
        pkl_location target_loc = None -> op_storage !! id <> Some Operation.Other ->
        join_ring_op send_ok op_storage ring
          (JoinRingMsg.Req id (JoinRequest.Initial target_loc req_peer hops_to_live
                                                   max_hops_to_live))
          new_location rnd sent
        = (sent, RErr (TxUpdateFailure id))).
Proof.
  split.
  - intros msg tx Hid Hs. destruct msg as [id r|id snd r|]; cbn in Hid; try discriminate;
      injection Hid as <-; unfold join_ring_op; cbn [mbind mlift JoinRingMsg.id];
      rewrite Hs; reflexivity.
  - intros id target_loc req_peer htl mx Hn Ho. unfold join_ring_op.
    cbn [mbind mlift JoinRingMsg.id].
    destruct (op_storage !! id) as [[st|]|]; [|contradiction|];
      cbn [mbind mlift JoinRingMsg.sender]; unfold update_state; rewrite Hn; reflexivity.
Qed.

(** X14: [join_ring_op] panics, before sending anything, on every response
    ([update_state]'s [todo!()] arms) and on every [Req::Proxy], unless
    the id is stored for another kind of operation. *)
Theorem join_ring_op_panics send_ok (op_storage : OpStateStorage) (ring : Ring)
    (new_location : Q) (rnd : nat) (sent : Sends) :
  (forall id sender r, op_storage !! id <> Some Operation.Other ->
     join_ring_op send_ok op_storage ring (JoinRingMsg.Resp id sender r) new_location rnd sent
     = (sent, RPanic))
  /\ (forall id joiner hops_to_live, op_storage !! id <> Some Operation.Other ->
        join_ring_op send_ok op_storage ring
          (JoinRingMsg.Req id (JoinRequest.Proxy joiner hops_to_live)) new_location rnd sent
        = (sent, RPanic)).
Proof.
  split.
  - intros id sender r Ho. unfold join_ring_op. cbn [mbind mlift JoinRingMsg.id].
    destruct (op_storage !! id) as [[st|]|]; [|contradiction|];
      cbn [mbind mlift JoinRingMsg.sender]; unfold update_state; destruct r; reflexivity.
  - intros id joiner htl Ho. unfold join_ring_op. cbn [mbind mlift JoinRingMsg.id].
    destruct (op_storage !! id) as [[st|]|]; [|contradiction|];
      cbn [mbind mlift JoinRingMsg.sender]; unfold update_state; reflexivity.
Qed.


(** X15: [join_ring_op] only ever appends to what was sent, at most one
    message per call, and never a [Canceled] notice, whatever the message,
    the storage, the ring and the transport. *)
Theorem join_ring_op_never_cancels send_ok (op_storage : OpStateStorage) (ring : Ring)
    (msg : JoinRingMsg.t) (new_location : Q) (rnd : nat) (sent : Sends) :
  exists new,
    fst (join_ring_op send_ok op_storage ring msg new_location rnd sent) = sent ++ new
    /\ (length new <= 1)%nat
    /\ Forall (fun e => is_canceled (snd e) = false) new.
Proof.
  unfold join_ring_op, update_state, send, mbind, mlift, mret, mfail, mpanic.
  destruct msg as [id r|id snd r|]; cbn [JoinRingMsg.id JoinRingMsg.sender Message.id
    Message.sender];
    repeat case_match; simplify_eq/=;
    first [ exists []; split; [symmetry; apply app_nil_r | split; [cbn; lia | constructor]]
          | eexists; split; [reflexivity | split; [cbn; lia | repeat constructor]] ].
Qed.

(** ** Peer time estimator, continued *)

Lemma collect_fst (hist : list RoutingEvent) (acc : list Point * gmap PeerId (list Point)) :
  fst (fold_left collect_step hist acc) = fst acc ++ map event_point hist.
Proof.
  revert acc. induction hist as [|ev hist IH]; intros acc; cbn [fold_left map].
  - now rewrite app_nil_r.
  - rewrite IH. unfold collect_step. cbn [fst]. now rewrite <- app_assoc.
Qed.

Section EstimatorMore.
Context {R : Type}.
Variable new_ascending : list Point -> R.
Variable reg_len : R -> nat.
Variable interpolate : R -> Q -> Q.

(** X16: [PeerTimeEstimator::new] fits the global regression on the points of
    the whole history, in order, and keeps a per-peer regression exactly
    for the peers with more than [MIN_PEER_POINTS_FOR_REGRESSION] events,
    fitted on that peer's points in history order; for such a peer the
    estimate is the interpolation of its own regression. *)
Theorem estimator_new_regressions (hist : list RoutingEvent) (p : PeerId) (d : Q) :
  let est := estimator_new new_ascending hist in
  global_regression est = new_ascending (map event_point hist)
  /\ (forall r, peer_regressions est !! p = Some r -> (MIN_PEER_POINTS_FOR_REGRESSION < peer_count p hist)%nat)
  /\ ((MIN_PEER_POINTS_FOR_REGRESSION < peer_count p hist)%nat ->
      let r := new_ascending (map event_point (List.filter (fun ev => Nat.eqb (ev_peer ev) p) hist)) in
      peer_regressions est !! p = Some r
      /\ estimate_retrieval_time reg_len interpolate est p d = Some (interpolate r d)).
Proof.
  intros est.
  assert (Hl : peer_regressions est !! p =
                 if Nat.ltb MIN_PEER_POINTS_FOR_REGRESSION (peer_count p hist)
                 then Some (new_ascending (map event_point
                              (List.filter (fun ev => Nat.eqb (ev_peer ev) p) hist)))
                 else None).
  { unfold est, estimator_new. cbn [peer_regressions]. rewrite lookup_omap, collect_lookup.
    cbn [snd]. rewrite lookup_empty.
    destruct (Nat.eqb_spec (peer_count p hist) 0) as [H0|H0].
    - rewrite H0. reflexivity.
    - cbn [default app mbind option_bind]. simpl. rewrite length_map. reflexivity. }
  split; [|split].
  - unfold est, estimator_new. cbn [global_regression]. now rewrite collect_fst.
  - intros r Hr. rewrite Hl in Hr.
    destruct (Nat.ltb_spec MIN_PEER_POINTS_FOR_REGRESSION (peer_count p hist));
      [assumption|discriminate].
  - intros Hc r. rewrite (proj2 (Nat.ltb_lt _ _) Hc) in Hl.
    split; [exact Hl|]. unfold estimate_retrieval_time. now rewrite Hl.
Qed.

End EstimatorMore.

(** ** Inbox model, continued *)

Section InboxExtras.
Context {C T : Type}.
Variable assignment_hash : T -> list Z.


Lemma remove_received_message_filter (m : InboxModel C T) (ids : list Z) :
  inbox_inv m ->
  messages (remove_received_message m ids) = List.filter (keep_unlisted ids) (messages m).
Proof.
  intros Hinv. destruct (Nat.leb_spec (length ids) 1) as [Hl|Hl].
  - exact (remove_single_path m ids Hinv Hl).
  - unfold remove_received_message. rewrite (proj2 (Nat.ltb_lt _ _) Hl). reflexivity.
Qed.

(** X17: On an inbox whose ids are strictly increasing, both paths of
    [remove_received_message] (binary search for at most one id, [retain]
    for more) remove exactly the messages whose id is listed, keep the
    others in order, and leave [next_msg_id] alone; ids that match no
    message are ignored. *)
Theorem remove_received_message_removes_listed (m : InboxModel C T) (ids : list Z) :
  inbox_inv m ->
  messages (remove_received_message m ids) = List.filter (keep_unlisted ids) (messages m)
  /\ next_msg_id (remove_received_message m ids) = next_msg_id m
  /\ (forall a, In a (messages (remove_received_message m ids))
                <-> In a (messages m) /\ ~ In (mm_id a) ids).
Proof.
  intros Hinv. pose proof (remove_received_message_filter m ids Hinv) as Hf.
  split; [exact Hf|]. split; [apply remove_received_message_next|].
  intros a. rewrite Hf, filter_In. unfold keep_unlisted.
  rewrite negb_true_iff. split.
  - intros [Ha He]. split; [exact Ha|]. intros Hin.
    assert (existsb (Z.eqb (mm_id a)) ids = true)
      by (apply existsb_exists; exists (mm_id a); split; [exact Hin|apply Z.eqb_refl]).
    congruence.
  - intros [Ha Hn]. split; [exact Ha|]. apply not_true_is_false. intros He.
    apply existsb_exists in He as [x [Hx Hxe]]. apply Z.eqb_eq in Hxe. subst x. tauto.
Qed.

(** X18: Adding a received message and then removing the id it was given
    restores the inbox's messages: the new message, and only it, carries
    that id; [next_msg_id] stays advanced, so the id is not reused. *)
Theorem add_then_remove_received_message (m : InboxModel C T) (content : C) (token_assignment : T) :
  inbox_inv m -> next_msg_id m + 1 <= u64_max ->
  exists m', add_received_message m content token_assignment = ROk m'
    /\ messages (remove_received_message m' [next_msg_id m]) = messages m
    /\ next_msg_id (remove_received_message m' [next_msg_id m]) = next_msg_id m + 1.
Proof.
  intros Hinv Hov.
  destruct (inbox_inv_add m content token_assignment Hinv Hov) as (m' & Hadd & Hinv' & Hm & Hn).
  exists m'. split; [exact Hadd|]. split.
  - rewrite (remove_received_message_filter m' _ Hinv'), Hm, List.filter_app.
    destruct Hinv as (_ & Hf & _).
    unfold keep_unlisted. cbn [List.filter existsb mm_id]. rewrite Z.eqb_refl. cbn [orb negb].
    rewrite app_nil_r. clear Hm Hadd Hinv'. induction (messages m) as [|a l IH]; [reflexivity|].
    inversion Hf as [|? ? Ha Hf']; subst. cbn [List.filter existsb].
    rewrite (proj2 (Z.eqb_neq (mm_id a) (next_msg_id m))) by lia. cbn [orb negb].
    f_equal. exact (IH Hf').
  - rewrite remove_received_message_next. exact Hn.
Qed.

(** X19: [remove_messages] sends, as the [ids] of its [RemoveMessages] delta
    (and as the bytes it signs, concatenated), the assignment hashes of
    the messages that REMAIN after the in-memory removal, in order; a
    message whose id is listed contributes no hash.  Removing every
    message thus sends an empty list. *)
Theorem remove_messages_lists_kept_hashes (m : InboxModel C T) (ids : list Z) :
  inbox_inv m ->
  let kept := List.filter (keep_unlisted ids) (messages m) in
  let hs := map (fun msg => assignment_hash (mm_token_assignment msg)) kept in
  messages (fst (remove_messages assignment_hash m ids)) = kept
  /\ snd (snd (remove_messages assignment_hash m ids)) = hs
  /\ fst (snd (remove_messages assignment_hash m ids)) = concat hs
  /\ (Forall (fun a => In (mm_id a) ids) (messages m) ->
      snd (snd (remove_messages assignment_hash m ids)) = []).
Proof.
  intros Hinv kept hs. unfold remove_messages. cbn [fst snd].
  rewrite (remove_received_message_filter m ids Hinv).
  split; [reflexivity|]. split; [reflexivity|]. split; [reflexivity|].
  intros Hall. fold kept. unfold kept.
  clear Hinv kept hs. induction (messages m) as [|a l IH]; [reflexivity|].
  inversion Hall as [|? ? Ha Hall']; subst. cbn [List.filter].
  unfold keep_unlisted at 1.
  replace (existsb (Z.eqb (mm_id a)) ids) with true
    by (symmetry; apply existsb_exists; exists (mm_id a); split; [exact Ha|apply Z.eqb_refl]).
  exact (IH Hall').
Qed.

End InboxExtras.

(** X20: [DecryptedMessage::to_stored] and [InboxModel::from_state] agree on
    the framing of a stored content when the encrypted key is 512 bytes
    long (an RSA-4096 key) and only then: [from_state]'s reads give back
    the nonce, key and data [to_stored] concatenated iff the key has 512
    bytes.  A content shorter than 536 bytes fails with [UnexpectedEof],
    and the [assignment_hash] of [to_stored] (the [Blake2s256] digest into
    a [[u8; 32]]) never panics. *)
Theorem stored_content_framing {E} (chacha_nonce encrypted_key encrypted_data : list Z) :
  length chacha_nonce = 24%nat ->
  (split_stored_content (stored_content chacha_nonce encrypted_key encrypted_data)
     = ROk (chacha_nonce, encrypted_key, encrypted_data)
   <-> length encrypted_key = 512%nat)
  /\ (forall content, (length content < 536)%nat -> split_stored_content content = RErr UnexpectedEof)
  /\ @stored_assignment_hash E (stored_content chacha_nonce encrypted_key encrypted_data)
     = ROk (blake2s256 (stored_content chacha_nonce encrypted_key encrypted_data))
  /\ length (blake2s256 (stored_content chacha_nonce encrypted_key encrypted_data)) = 32%nat.
Proof.
  intros Hn. split; [|split; [|split]].
  - unfold split_stored_content, stored_content.
    rewrite read_exact_repeat by exact Hn. cbn [fst snd res_bind].
    split.
    + intros H. unfold read_exact in H. rewrite repeat_length in H.
      destruct (Nat.leb_spec 512 (length (encrypted_key ++ encrypted_data))) as [Hle|];
        [|discriminate].
      cbn [res_bind fst snd] in H. injection H as H1 H2.
      apply (f_equal (@length Z)) in H1. rewrite length_firstn in H1.
      rewrite length_app in *. lia.
    + intros Hk. rewrite read_exact_repeat by exact Hk. reflexivity.
  - intros content Hc. unfold split_stored_content.
    destruct (Nat.leb_spec 24 (length content)) as [H24|H24].
    + unfold read_exact at 1. rewrite repeat_length, (proj2 (Nat.leb_le _ _) H24).
      cbn [res_bind fst snd]. unfold read_exact. rewrite repeat_length.
      rewrite (proj2 (Nat.leb_gt 512 (length (skipn 24 content)))) by (rewrite length_skipn; lia).
      reflexivity.
    + unfold read_exact. rewrite repeat_length.
      rewrite (proj2 (Nat.leb_gt 24 (length content))) by lia. reflexivity.
  - unfold stored_assignment_hash, try_into_unwrap, blake2s256. rewrite blake2_length.
    reflexivity.
  - apply blake2_length.
Qed.

(** ** Witnesses of the hypotheses *)

Local Open Scope Z_scope.

Lemma hex_decode_of_hex_encode_witness :
  length (map Z.of_nat (seq 0 64)) = CONTRACT_KEY_SIZE
  /\ Forall (fun b => 0 <= b < 256) (map Z.of_nat (seq 0 64))
  /\ hex_decode (hex_encode_bytes (map Z.of_nat (seq 0 64))) [7]
     = ROk {| ck_spec := blake2b512 (map Z.of_nat (seq 0 64) ++ [7]);
              ck_contract := map Z.of_nat (seq 0 64) |}.
Proof.
  assert (Hl : length (map Z.of_nat (seq 0 64)) = CONTRACT_KEY_SIZE) by reflexivity.
  assert (Hf : Forall (fun b => 0 <= b < 256) (map Z.of_nat (seq 0 64))).
  { apply List.Forall_forall. intros x Hx. apply in_map_iff in Hx as [n [<- Hn]].
    apply in_seq in Hn. lia. }
  split; [exact Hl|]. split; [exact Hf|].
  exact (proj1 (hex_decode_of_hex_encode (map Z.of_nat (seq 0 64)) [7] Hl Hf)).
Defined.

Lemma spec_try_from_truncated_witness :
  Z.of_nat (length [7%Z]) <= isize_max
  /\ Z.of_nat (length [4%Z; 5%Z; 6%Z]) <= isize_max
  /\ (10 < length (encode_spec [7%Z] [4%Z; 5%Z; 6%Z]))%nat
  /\ spec_try_from (firstn 10 (encode_spec [7] [4; 5; 6])) = RErr UnexpectedEof.
Proof.
  assert (H1 : Z.of_nat (length [7%Z]) <= isize_max) by (vm_compute; discriminate).
  assert (H2 : Z.of_nat (length [4%Z; 5%Z; 6%Z]) <= isize_max) by (vm_compute; discriminate).
  assert (H3 : (10 < length (encode_spec [7%Z] [4%Z; 5%Z; 6%Z]))%nat)
    by (apply Nat.ltb_lt; vm_compute; reflexivity).
  split; [exact H1|]. split; [exact H2|]. split; [exact H3|].
  exact (proj2 (spec_try_from_truncated [7] [4; 5; 6] 10 H1 H2 H3)).
Defined.

Definition sample_key : ContractKey :=
  {| ck_spec := map Z.of_nat (seq 0 64); ck_contract := map Z.of_nat (seq 64 64) |}.

Definition sample_data : ContractData :=
  {| cd_data := map Z.of_nat (seq 97 10); cd_key := map Z.of_nat (seq 0 64) |}.

Lemma display_key_prefix_and_full_data_witness :
  (4 <= length (ck_spec sample_key))%nat
  /\ (4 <= length (cd_key sample_data))%nat
  /\ @contract_key_fmt unit sample_key
     = ROk (ascii_bytes "ContractKey(" ++ hex_encode_bytes (firstn 4 (ck_spec sample_key))
            ++ ascii_bytes ")").
Proof.
  assert (H1 : (4 <= length (ck_spec sample_key))%nat) by (apply Nat.leb_le; reflexivity).
  assert (H2 : (4 <= length (cd_key sample_data))%nat) by (apply Nat.leb_le; reflexivity).
  split; [exact H1|]. split; [exact H2|].
  exact (proj1 (@display_key_prefix_and_full_data unit sample_key sample_data H1 H2)).
Defined.

Definition sample_join_op : JRState.t :=
  JRState.Connecting {| gateway := gateway_pkl; this_peer := 9%nat; ci_max_hops_to_live := 3%nat |}.

Lemma join_start_sends_initial_to_gateway_witness :
  pkl_location gateway_pkl = Some 0%Q
  /\ initial_join_request true always_delivered (∅ : OpStateStorage) sample_join_op 5%nat [] []
     = ([(gateway_pkl, true)],
        [(gateway_pkl, Message.JoinRing (JoinRingMsg.Req 5%nat
                         (JoinRequest.Initial gateway_pkl 9%nat 3%nat 3%nat)))],
        ROk (<[5%nat := Operation.JoinRing sample_join_op]> (∅ : OpStateStorage))).
Proof.
  assert (Hloc : pkl_location gateway_pkl = Some 0%Q) by reflexivity.
  split; [exact Hloc|].
  exact (proj2 (join_start_sends_initial_to_gateway true always_delivered ∅ 0%nat 5%nat 9%nat
                  gateway_pkl 0%Q 3%nat [] [] Hloc)).
Defined.

Lemma join_ring_op_initial_not_forwarded_witness :
  pkl_location gateway_pkl = Some 0%Q
  /\ join_ring_op always_delivered (∅ : OpStateStorage) one_neighbor_ring
       (JoinRingMsg.Req 0%nat (JoinRequest.Initial gateway_pkl 9%nat 0%nat 5%nat)) (1 # 4) 0%nat []
     = ([(gateway_pkl, initial_reply one_neighbor_ring 0%nat gateway_pkl 0%Q 9%nat (1 # 4))],
        ROk (<[0%nat := Operation.JoinRing JRState.Initializing]> (∅ : OpStateStorage))).
Proof.
  assert (Hloc : pkl_location gateway_pkl = Some 0%Q) by reflexivity.
  split; [exact Hloc|].
  apply (join_ring_op_initial_not_forwarded always_delivered ∅ one_neighbor_ring 0%nat
           gateway_pkl 0%Q 9%nat 0%nat 5%nat (1 # 4) 0%nat [] JRState.Initializing Hloc).
  - left. reflexivity.
  - left. split; reflexivity.
Defined.

(** Three stored messages, ids 0, 1, 2, with token assignments 20, 21, 22. *)
Definition sample_inbox : InboxModel nat nat :=
  inbox_from_state [(10, 20); (11, 21); (12, 22)]%nat.

Lemma sample_inbox_inv : inbox_inv sample_inbox.
Proof. apply inbox_inv_from_state. unfold u64_max. simpl. lia. Qed.

Lemma remove_received_message_removes_listed_witness :
  inbox_inv sample_inbox
  /\ messages (remove_received_message sample_inbox [0; 2])
     = List.filter (keep_unlisted [0; 2]) (messages sample_inbox).
Proof.
  split; [exact sample_inbox_inv|].
  exact (proj1 (remove_received_message_removes_listed sample_inbox [0; 2] sample_inbox_inv)).
Defined.

Lemma add_then_remove_received_message_witness :
  inbox_inv sample_inbox
  /\ next_msg_id sample_inbox + 1 <= u64_max
  /\ exists m', add_received_message sample_inbox 13%nat 23%nat = ROk m'
       /\ messages (remove_received_message m' [next_msg_id sample_inbox]) = messages sample_inbox.
Proof.
  assert (Hov : next_msg_id sample_inbox + 1 <= u64_max) by (unfold u64_max; simpl; lia).
  split; [exact sample_inbox_inv|]. split; [exact Hov|].
  destruct (add_then_remove_received_message sample_inbox 13%nat 23%nat sample_inbox_inv Hov)
    as (m' & Hadd & Hrem & _).
  exists m'. split; [exact Hadd|exact Hrem].
Defined.

Definition sample_assignment_hash (t : nat) : list Z := [Z.of_nat t].

Lemma remove_messages_lists_kept_hashes_witness :
  inbox_inv sample_inbox
  /\ snd (snd (remove_messages sample_assignment_hash sample_inbox [0; 2])) = [[21]].
Proof.
  split; [exact sample_inbox_inv|].
  pose proof (remove_messages_lists_kept_hashes sample_assignment_hash sample_inbox [0; 2]
                sample_inbox_inv) as H.
  cbv zeta in H. destruct H as (_ & H & _). rewrite H. reflexivity.
Defined.

Lemma stored_content_framing_witness :
  length (repeat 1 24) = 24%nat
  /\ split_stored_content (stored_content (repeat 1 24) (repeat 2 512) [3])
     = ROk (repeat 1 24, repeat 2 512, [3]).
Proof.
  assert (Hn : length (repeat 1 24) = 24%nat) by reflexivity.
  split; [exact Hn|].
  apply (proj1 (@stored_content_framing unit (repeat 1 24) (repeat 2 512) [3] Hn)).
  reflexivity.
Defined.
